(** * WaveBlocksND: quadrature rules and the Hagedorn wavepacket base class

    A shallow embedding of

    - [WaveBlocksND/GaussHermiteQR.py], [WaveBlocksND/GaussLaguerreQR.py],
      [WaveBlocksND/TensorProductQR.py] (quadrature rules), and
    - [WaveBlocksND/HagedornWavepacketBase.py] (basis shapes, coefficient
      storage, evaluation of the ground state phi_0),

    followed by the properties of these programs.

    NumPy scalars are kept abstract: every definition is written against
    the interface [Numeric], which supplies exactly the scalar primitives
    the Python code calls.  The structural theorems therefore hold for any
    interpretation of these primitives.  Concrete inputs are evaluated in
    the instance [Cplx.numeric] (complex numbers over the real numbers of
    the Standard Library). *)

From Stdlib Require Import ZArith QArith_base Reals Lra Lia.
From stdpp Require Import base option list gmap strings.

Set Warnings "-register-all".

(** ** NumPy scalars *)

(** The scalar primitives used by the sources.  One carrier stands for
    both [float64] and [complex128]; [lit] is a float literal (or an
    [int] converted to float), [imag] an imaginary literal ([1.0j] is
    [imag 1]). [la_inv] and [la_det] are [numpy.linalg.inv] and
    [numpy.linalg.det] on matrices given by their rows. *)
Class Numeric (F : Type) := {
  lit : Q → F;
  imag : Q → F;
  np_pi : F;
  np_add : F → F → F;
  np_sub : F → F → F;
  np_mul : F → F → F;
  np_div : F → F → F;
  np_pow : F → F → F;
  np_exp : F → F;
  np_sqrt : F → F;
  np_real : F → F;
  la_inv : list (list F) → list (list F);
  la_det : list (list F) → F
}.

Declare Scope np_scope.
Delimit Scope np_scope with np.
Notation "x + y" := (np_add x y) : np_scope.
Notation "x - y" := (np_sub x y) : np_scope.
Notation "x * y" := (np_mul x y) : np_scope.
Notation "x / y" := (np_div x y) : np_scope.
Notation "x ** y" := (np_pow x y) (at level 30, right associativity) : np_scope.

(** An [int] used in float arithmetic. *)
Definition of_Z `{Numeric F} (z : Z) : F := lit (inject_Z z).

(** ** Exceptions and results *)

Inductive exn : Set :=
| ValueError
| IndexError
| KeyError
| TypeError
| UnboundLocalError.

Inductive result (A : Type) : Type :=
| Ok (a : A)
| Raise (e : exn).
Arguments Ok {A} a.
Arguments Raise {A} e.

Definition result_bind {A B} (r : result A) (k : A → result B) : result B :=
  match r with
  | Ok a => k a
  | Raise e => Raise e
  end.

#[global] Instance result_ret : MRet result := λ A a, Ok a.
#[global] Instance result_mbind : MBind result := λ A B k r, result_bind r k.
#[global] Instance result_fmap : FMap result := λ A B f r, result_bind r (λ a, Ok (f a)).

(** [l[i]] for a Python list and a non-negative index. *)
Definition list_getitem {A} (l : list A) (i : nat) : result A :=
  match l !! i with
  | Some x => Ok x
  | None => Raise IndexError
  end.

Fixpoint result_mapM {A B} (f : A → result B) (l : list A) : result (list B) :=
  match l with
  | [] => Ok []
  | x :: l' =>
      match f x with
      | Ok y =>
          match result_mapM f l' with
          | Ok ys => Ok (y :: ys)
          | Raise e => Raise e
          end
      | Raise e => Raise e
      end
  end.

(** ** Stateful code: a state monad in which a raised exception keeps
    the state reached so far *)

Definition M (St A : Type) : Type := St → result A * St.

#[global] Instance M_ret {St} : MRet (M St) := λ A a s, (Ok a, s).
#[global] Instance M_bind {St} : MBind (M St) := λ A B k m s,
  match m s with
  | (Ok a, s') => k a s'
  | (Raise e, s') => (Raise e, s')
  end.

Definition raise {St A} (e : exn) : M St A := λ s, (Raise e, s).
Definition gets {St A} (f : St → A) : M St A := λ s, (Ok (f s), s).
Definition modify {St} (f : St → St) : M St unit := λ s, (Ok tt, f s).
Definition lift {St A} (r : result A) : M St A := λ s, (r, s).

(** [for index, x in enumerate(l): body] *)
Fixpoint for_enumerate {St A} (body : nat → A → M St unit) (index : nat) (l : list A)
  : M St unit :=
  match l with
  | [] => mret tt
  | x :: l' => body index x ≫= λ _, for_enumerate body (S index) l'
  end.

(** ** NumPy arrays in memory *)

(** Memory is a list of buffers, [list (list F)]; a one-dimensional array or a column
    vector of shape [(n,1)] is a view: a buffer, an offset and a size.
    Slices and [vsplit] produce views into the buffer of their argument;
    [zeros], [copy] and [vstack] allocate a new buffer. *)
Record ndarray : Set := NdArray { nd_base : nat; nd_offset : nat; nd_size : nat }.

(** An array of linear indices, as [array] builds it from a list, with
    the dtype NumPy gives it. *)
Inductive dtype : Set := int64 | float64.
Record index_array : Set := IndexArray { ia_dtype : dtype; ia_items : list nat }.

Section NumPyArrays.
Context {F : Type} `{Numeric F}.

Definition read (h : list (list F)) (a : ndarray) : option (list F) :=
  buf ← h !! nd_base a;
  if bool_decide (nd_offset a + nd_size a ≤ length buf)
  then Some (take (nd_size a) (drop (nd_offset a) buf))
  else None.

Definition alloc (data : list F) (h : list (list F)) : ndarray * list (list F) :=
  (NdArray (length h) 0 (length data), h ++ [data]).

(** In-place assignment [a[...] = data] of the whole content of the view
    [a]; the other entries of its buffer stay as they are. *)
Definition write (h : list (list F)) (a : ndarray) (data : list F) : list (list F) :=
  match h !! nd_base a with
  | Some buf =>
      <[nd_base a := take (nd_offset a) buf ++ data
                     ++ drop (nd_offset a + length data) buf]> h
  | None => h
  end.

(** [zeros((n,1))] as data. *)
Definition zeros (n : nat) : list F := replicate n (lit 0).

(** [array(l)] for a list of linear indices.  NumPy takes the dtype from
    the entries: an integer dtype for a list of integers, and [float64]
    for the empty list, which has no entry to take it from. *)
Definition array (l : list nat) : index_array :=
  IndexArray (match l with [] => float64 | _ :: _ => int64 end) l.

(** [a[idx]] for an index array: a new array holding the selected
    entries.  An array used as index has to be of integer type, so the
    [float64] array that [array([])] is raises [IndexError]; so does an
    index outside the array. *)
Definition fancy_get (data : list F) (idx : index_array) : result (list F) :=
  match ia_dtype idx with
  | int64 => result_mapM (list_getitem data) (ia_items idx)
  | float64 => Raise IndexError
  end.

(** The entries [idx] of [data] overwritten with [vals], in the order of
    [idx]. *)
Fixpoint set_items (data : list F) (idx : list nat) (vals : list F)
  : result (list F) :=
  match idx, vals with
  | j :: idx', v :: vals' =>
      if bool_decide (j < length data)
      then set_items (<[j := v]> data) idx' vals'
      else Raise IndexError
  | _, _ => Ok data
  end.

(** [a[idx] = vals] for an index array, which has to be of integer type
    as in [fancy_get]. *)
Definition fancy_set (data : list F) (idx : index_array) (vals : list F)
  : result (list F) :=
  match ia_dtype idx with
  | int64 => set_items data (ia_items idx) vals
  | float64 => Raise IndexError
  end.

(** [cumsum(l)] *)
Fixpoint cumsum_from (acc : nat) (l : list nat) : list nat :=
  match l with
  | [] => []
  | n :: l' => (acc + n) :: cumsum_from (acc + n) l'
  end.
Definition cumsum (l : list nat) : list nat := cumsum_from 0 l.

(** [l[:-1]] *)
Definition drop_last {A} (l : list A) : list A := take (length l - 1) l.

(** [a[st:end]] for non-negative bounds: a view, clamped to the array. *)
Definition slice (a : ndarray) (st en : nat) : ndarray :=
  let st' := st `min` nd_size a in
  let en' := en `min` nd_size a in
  NdArray (nd_base a) (nd_offset a + st') (en' - st').

(** [vsplit(a, partition)]: the views between consecutive division points
    [0, partition..., len(a)]. *)
Fixpoint sub_arrays (a : ndarray) (st : nat) (points : list nat) : list ndarray :=
  match points with
  | [] => []
  | en :: points' => slice a st en :: sub_arrays a en points'
  end.
Definition vsplit (a : ndarray) (partition : list nat) : list ndarray :=
  sub_arrays a 0 (partition ++ [nd_size a]).

End NumPyArrays.

(** ** Basis shapes *)

(** A multi-index is a tuple of [D] non-negative integers, a [list nat]. *)

(** Modelled from the spec: the class [BasisShape] lives in another
    module of WaveBlocksND; the wavepacket code uses it only through iteration,
    [k in shape], [shape[k]] and [get_basissize()].  A basis shape is "a
    finite set of D-dimensional non-negative multi-indices with a
    bijective mapping to linear indices 0..K-1", iterated in a stable
    order. *)
Record BasisShape : Type := {
  bs_iter : list (list nat);          (* [__iter__] *)
  bs_lima : gmap (list nat) nat;      (* the linear index mapping *)
  bs_basissize : nat                   (* [get_basissize()] *)
}.

Definition get_basissize (bs : BasisShape) : nat := bs_basissize bs.

(** [k in bs] *)
Definition bs_contains (bs : BasisShape) (k : list nat) : bool :=
  bool_decide (is_Some (bs_lima bs !! k)).

(** [bs[k]] *)
Definition bs_getitem (bs : BasisShape) (k : list nat) : result nat :=
  match bs_lima bs !! k with
  | Some j => Ok j
  | None => Raise KeyError
  end.

(** The contract of a basis shape. *)
Record wf_shape (bs : BasisShape) : Prop := {
  wf_iter_nodup : NoDup (bs_iter bs);
  wf_iter_lima : ∀ k, k ∈ bs_iter bs ↔ is_Some (bs_lima bs !! k);
  wf_size : bs_basissize bs = length (bs_iter bs);
  wf_lima_bound : ∀ k j, bs_lima bs !! k = Some j → j < bs_basissize bs;
  wf_lima_inj : ∀ k k' j, bs_lima bs !! k = Some j → bs_lima bs !! k' = Some j → k = k'
}.

(** ** HagedornWavepacketBase *)

Module HagedornWavepacketBase.

(** The attributes of [self] used by the methods below. *)
Record Wavepacket (F : Type) : Type := {
  _dimension : Z;
  _eps : F;
  _number_components : Z;
  _basis_shapes : list BasisShape;
  _basis_sizes : list nat;
  _coefficients : list ndarray
}.
Arguments _dimension {F} _.
Arguments _eps {F} _.
Arguments _number_components {F} _.
Arguments _basis_shapes {F} _.
Arguments _basis_sizes {F} _.
Arguments _coefficients {F} _.

(** The object together with the memory its arrays live in. *)
Record world (F : Type) : Type := World { self : Wavepacket F; mem : list (list F) }.
Arguments World {F} self mem.
Arguments self {F} _.
Arguments mem {F} _.

Section Methods.
Context {F : Type} `{Numeric F}.

Definition set_coefficients_field (c : list ndarray) (w : Wavepacket F) : Wavepacket F :=
  {| _dimension := _dimension w; _eps := _eps w;
     _number_components := _number_components w;
     _basis_shapes := _basis_shapes w; _basis_sizes := _basis_sizes w;
     _coefficients := c |}.

Definition set_basis_shapes_field (b : list BasisShape) (w : Wavepacket F) : Wavepacket F :=
  {| _dimension := _dimension w; _eps := _eps w;
     _number_components := _number_components w;
     _basis_shapes := b; _basis_sizes := _basis_sizes w;
     _coefficients := _coefficients w |}.

Definition set_basis_sizes_field (b : list nat) (w : Wavepacket F) : Wavepacket F :=
  {| _dimension := _dimension w; _eps := _eps w;
     _number_components := _number_components w;
     _basis_shapes := _basis_shapes w; _basis_sizes := b;
     _coefficients := _coefficients w |}.

(** *** Memory operations in the monad *)

Definition new_array (data : list F) : M (world F) ndarray :=
  λ w, let '(a, h) := alloc data (mem w) in (Ok a, World (self w) h).

Definition load (a : ndarray) : M (world F) (list F) :=
  λ w, match read (mem w) a with
       | Some data => (Ok data, w)
       | None => (Raise IndexError, w)
       end.

(** Overwrite the whole content of the view [a]. *)
Definition store (a : ndarray) (data : list F) : M (world F) unit :=
  modify (λ w, World (self w) (write (mem w) a data)).

(** [a.copy()] *)
Definition ndarray_copy (a : ndarray) : M (world F) ndarray :=
  load a ≫= new_array.

(** [a.reshape((bs,1))]: a view of the same buffer; the total size has
    to be unchanged. *)
Definition reshape_column (a : ndarray) (bs : nat) : M (world F) ndarray :=
  if bool_decide (nd_size a = bs) then mret a else raise ValueError.

(** [self._coefficients[i]], [self._coefficients[i] = a], and likewise for
    the basis shapes. *)
Definition get_coefficients_item (i : nat) : M (world F) ndarray :=
  gets (λ w, _coefficients (self w)) ≫= λ c, lift (list_getitem c i).

Definition set_coefficients_item (i : nat) (a : ndarray) : M (world F) unit :=
  gets (λ w, _coefficients (self w)) ≫= λ c,
  if bool_decide (i < length c)
  then modify (λ w, World (set_coefficients_field (<[i := a]> c) (self w)) (mem w))
  else raise IndexError.

Definition get_basis_shapes_item (i : nat) : M (world F) BasisShape :=
  gets (λ w, _basis_shapes (self w)) ≫= λ b, lift (list_getitem b i).

Definition set_basis_shapes_item (i : nat) (bs : BasisShape) : M (world F) unit :=
  gets (λ w, _basis_shapes (self w)) ≫= λ b,
  if bool_decide (i < length b)
  then modify (λ w, World (set_basis_shapes_field (<[i := bs]> b) (self w)) (mem w))
  else raise IndexError.

Definition get_basis_sizes_item (i : nat) : M (world F) nat :=
  gets (λ w, _basis_sizes (self w)) ≫= λ b, lift (list_getitem b i).

(** *** [_resize_coefficient_storage] *)

Definition intersection (bs_old bs_new : BasisShape) : list (list nat) :=
  let bso := get_basissize bs_old in
  let bsn := get_basissize bs_new in
  if bool_decide (bso ≤ bsn)
  then filter (λ k, bs_contains bs_new k = true) (bs_iter bs_old)
  else filter (λ k, bs_contains bs_old k = true) (bs_iter bs_new).

Definition _resize_coefficient_storage (component : nat) (bs_old bs_new : BasisShape)
  : M (world F) unit :=
  let bsn := get_basissize bs_new in
  (* Find the intersection of K and K' *)
  let insec := intersection bs_old bs_new in
  (* Construct the index mapping *)
  i ← lift (array <$> result_mapM (bs_getitem bs_old) insec);
  j ← lift (array <$> result_mapM (bs_getitem bs_new) insec);
  (* Copy over the data *)
  cnew ← new_array (zeros bsn);
  cold ← get_coefficients_item component;
  old ← load cold;
  vals ← lift (fancy_get old i);
  cur ← load cnew;
  new ← lift (fancy_set cur j vals);
  store cnew new;;
  set_coefficients_item component cnew.

(** *** [set_basis_shape] *)

(** The argument is one shape when a component is given and a list of
    shapes when it is not. *)
Definition basis_shape_arg (component : option Z) : Type :=
  match component with
  | Some _ => BasisShape
  | None => list BasisShape
  end.

Definition update_basis_sizes : M (world F) unit :=
  modify (λ w, World (set_basis_sizes_field
                        (get_basissize <$> _basis_shapes (self w)) (self w))
                     (mem w)).

Definition set_basis_shape (component : option Z)
  : basis_shape_arg component → M (world F) unit :=
  match component with
  | Some component => λ basis_shape,
      n ← gets (λ w, _number_components (self w));
      (* Check for valid input basis shape *)
      if negb (bool_decide (0 ≤ component < n)%Z)
      then raise ValueError
      else
        let c := Z.to_nat component in
        (* Adapt the coefficient storage vectors *)
        bs_old ← get_basis_shapes_item c;
        _resize_coefficient_storage c bs_old basis_shape;;
        (* Set the new basis shape for the given component *)
        set_basis_shapes_item c basis_shape;;
        (* And update the caches information *)
        update_basis_sizes
  | None => λ basis_shape,
      n ← gets (λ w, _number_components (self w));
      (* Check for valid input basis shape *)
      if negb (bool_decide (Z.of_nat (length basis_shape) = n))
      then raise ValueError
      else
        for_enumerate (λ index bsnew,
          bs_old ← get_basis_shapes_item index;
          _resize_coefficient_storage index bs_old bsnew;;
          set_basis_shapes_item index bsnew) 0 basis_shape;;
        update_basis_sizes
  end.

(** *** [set_coefficients] *)

(** The argument is one array when a component is given and a list of
    arrays when it is not. *)
Definition values_arg (component : option Z) : Type :=
  match component with
  | Some _ => ndarray
  | None => list ndarray
  end.

(** Reading a local variable of the running call by its name.  [frame]
    holds the locals that are bound at this point; reading any other
    local of the function raises. *)
Definition load_local (frame : gmap string ndarray) (name : string)
  : M (world F) ndarray :=
  match frame !! name with
  | Some a => mret a
  | None => raise UnboundLocalError
  end.

Definition set_coefficients (component : option Z)
  : values_arg component → M (world F) unit :=
  match component with
  | None => λ values,
      n ← gets (λ w, _number_components (self w));
      if negb (bool_decide (Z.of_nat (length values) = n))
      then raise ValueError
      else
        for_enumerate (λ index value,
          bs ← get_basis_sizes_item index;
          c ← ndarray_copy value;
          r ← reshape_column c bs;
          set_coefficients_item index r) 0 values
  | Some component => λ values,
      n ← gets (λ w, _number_components (self w));
      if bool_decide (component > n - 1)%Z || bool_decide (component < 0)%Z
      then raise ValueError
      else
        (* The parameter is [values]; the local [value] is assigned only
           by the loop of the other branch. *)
        let frame : gmap string ndarray := {[ "values" := values ]} in
        bs ← get_basis_sizes_item (Z.to_nat component);
        value ← load_local frame "value";
        c ← ndarray_copy value;
        r ← reshape_column c bs;
        set_coefficients_item (Z.to_nat component) r
  end.

(** *** [get_coefficient_vector] and [set_coefficient_vector] *)




Definition set_coefficient_vector (vector : ndarray) : M (world F) unit :=
  sizes ← gets (λ w, _basis_sizes (self w));
  (* Compute the partition of the block-vector from the basis sizes *)
  let partition := drop_last (cumsum sizes) in
  (* Split the block-vector with the given partition and assign *)
  modify (λ w, World (set_coefficients_field (vsplit vector partition) (self w)) (mem w)).

(** *** [_evaluate_phi0] *)

(** The parameter set [Pi = (q, p, Q, P, S)]: [q] and [p] are columns of
    shape [(D,1)], given by their [D] entries; [Q] and [P] are [D x D]
    arrays given by their rows. *)
Record ParameterSet : Type := {
  Pi_q : list F;
  Pi_p : list F;
  Pi_Q : list (list F);
  Pi_P : list (list F);
  Pi_S : F
}.

(** [A * B] for two arrays of the same shape: the entrywise product. *)
Definition array_mul (A B : list (list F)) : list (list F) :=
  zip_with (zip_with np_mul) A B.

(** [c * A] and [c - A]-like broadcasts of a column [c] of shape [(D,1)]
    against an array [A] of shape [(D,N)]. *)
Definition column_mul (c : list F) (A : list (list F)) : list (list F) :=
  zip_with (λ cd row, np_mul cd <$> row) c A.
Definition sub_column (A : list (list F)) (c : list F) : list (list F) :=
  zip_with (λ row cd, (λ x, np_sub x cd) <$> row) A c.

(** [sum(A, axis=0)]: the rows added up, first to last. *)
Definition sum_axis0 (A : list (list F)) : list F :=
  match A with
  | [] => []
  | row :: rows => foldl (zip_with np_add) row rows
  end.

(** [dot(A, B)]: the matrix product; row [i] of the result is the sum
    over [k] of [A[i][k] * B[k]]. *)
Definition dot (A B : list (list F)) : list (list F) :=
  (λ Ai, sum_axis0 (column_mul Ai B)) <$> A.

(** The arrays have the shapes of the docstring: [nodes] is [(D, N)] with
    [D >= 1], and the broadcasts below are between conforming shapes. *)
Definition _evaluate_phi0 (w : Wavepacket F) (Pi : ParameterSet)
    (nodes : list (list F)) (prefactor : bool) : list F :=
  let d := _dimension w in
  let eps := _eps w in
  let df := sub_column nodes (Pi_q Pi) in
  let pr1 := sum_axis0 (array_mul df (dot (array_mul (Pi_P Pi) (la_inv (Pi_Q Pi))) df)) in
  let pr2 := sum_axis0 (column_mul (Pi_p Pi) df) in
  let exponent :=
    zip_with np_add
      (np_mul (imag 1 / (lit 2 * eps ** of_Z 2))%np <$> pr1)
      (np_mul (imag 1 / (eps ** of_Z 2))%np <$> pr2) in
  let prefactor :=
    if prefactor
    then ((np_pi * eps ** of_Z 2) ** (of_Z (- d) * lit (1 # 4))
          * la_det (Pi_Q Pi) ** lit (- 1 # 2))%np
    else ((np_pi * eps ** of_Z 2) ** (of_Z (- d) * lit (1 # 4)))%np in
  np_mul prefactor <$> (np_exp <$> exponent).

(** The ground state as the specification words it, for one node [x]
    (a column of the node array): with [df = x - q],
    [pr1 = df . (P Q^-1) . df] for the matrix product [P Q^-1], and
    [pr2 = p . df]. *)
Definition inner (u v : list F) : F :=
  match zip_with np_mul u v with
  | [] => lit 0
  | t :: ts => foldl np_add t ts
  end.

Definition phi0_spec (d : Z) (eps : F) (Pi : ParameterSet) (x : list F)
    (prefactor : bool) : F :=
  let df := zip_with np_sub x (Pi_q Pi) in
  let PQinv := dot (Pi_P Pi) (la_inv (Pi_Q Pi)) in
  let pr1 := inner df ((λ row, inner row df) <$> PQinv) in
  let pr2 := inner (Pi_p Pi) df in
  let exponent :=
    (imag 1 / (lit 2 * eps ** of_Z 2) * pr1 + imag 1 / (eps ** of_Z 2) * pr2)%np in
  let normalization :=
    if prefactor
    then ((np_pi * eps ** of_Z 2) ** (of_Z (- d) * lit (1 # 4))
          * la_det (Pi_Q Pi) ** lit (- 1 # 2))%np
    else ((np_pi * eps ** of_Z 2) ** (of_Z (- d) * lit (1 # 4)))%np in
  (normalization * np_exp exponent)%np.

(** Column [c] of an array given by its rows. *)
Definition column (A : list (list F)) (c : nat) : list F :=
  (λ row, default (lit 0) (row !! c)) <$> A.

(** *** [get_basis_shape] *)

(** [l[z]] for a Python list and any integer: a negative index counts
    from the end. *)
Definition py_getitem {A} (l : list A) (z : Z) : result A :=
  if bool_decide (0 ≤ z)%Z then list_getitem l (Z.to_nat z)
  else if bool_decide (- Z.of_nat (length l) ≤ z)%Z
       then list_getitem l (Z.to_nat (Z.of_nat (length l) + z))
       else Raise IndexError.

(** The result is one shape when a component is given and the tuple of
    all shapes when it is not. *)
Definition get_basis_shape (component : option Z)
  : M (world F) (basis_shape_arg component) :=
  match component with
  | Some component =>
      gets (λ w, _basis_shapes (self w)) ≫= λ b,
      lift (py_getitem b component : result BasisShape)
  | None => gets (λ w, _basis_shapes (self w))
  end.

(** *** [set_coefficient] and [get_coefficient] *)

(** [a[key] = value] for one entry of the view [a], written in place. *)
Definition store_item (a : ndarray) (key : nat) (value : F) : M (world F) unit :=
  λ w, match mem w !! nd_base a with
       | Some buf =>
           if bool_decide (key < nd_size a)
           then (Ok tt, World (self w)
                              (<[nd_base a := <[nd_offset a + key := value]> buf]> (mem w)))
           else (Raise IndexError, w)
       | None => (Raise IndexError, w)
       end.

(** [a[key]] for a column vector [a]: the view of its row [key]. *)
Definition item_view (a : ndarray) (key : nat) : result ndarray :=
  if bool_decide (key < nd_size a)
  then Ok (NdArray (nd_base a) (nd_offset a + key) 1)
  else Raise IndexError.

Definition set_coefficient (component : Z) (index : list nat) (value : F)
  : M (world F) unit :=
  n ← gets (λ w, _number_components (self w));
  if bool_decide (component > n - 1)%Z || bool_decide (component < 0)%Z
  then raise ValueError
  else
    bs ← get_basis_shapes_item (Z.to_nat component);
    if negb (bs_contains bs index)
    then raise ValueError
    else
      (* Apply linear order mapping here *)
      key ← lift (bs_getitem bs index);
      c ← get_coefficients_item (Z.to_nat component);
      store_item c key value.

Definition get_coefficient (component : Z) (index : list nat)
  : M (world F) ndarray :=
  n ← gets (λ w, _number_components (self w));
  if bool_decide (component > n - 1)%Z || bool_decide (component < 0)%Z
  then raise ValueError
  else
    bs ← get_basis_shapes_item (Z.to_nat component);
    if negb (bs_contains bs index)
    then raise ValueError
    else
      (* Apply linear order mapping here *)
      key ← lift (bs_getitem bs index);
      c ← get_coefficients_item (Z.to_nat component);
      lift (item_view c key).

(** *** [get_coefficients] *)



End Methods.
End HagedornWavepacketBase.

(** ** Quadrature rules *)

(** The [options] dictionary of a rule: string keys, plain values. *)
Inductive pyatom : Set :=
| PyInt (z : Z)
| PyStr (s : string)
| PyBool (b : bool).

(** A one- or two-dimensional array as a value. *)
Inductive ndvalue (F : Type) : Type :=
| Vec (l : list F)                (* shape [(N,)] *)
| Mat (rows : list (list F)).     (* shape [(D,N)] *)
Arguments Vec {F} l.
Arguments Mat {F} rows.

(** The instances of the three classes, with their attributes. *)
Inductive QuadratureRule (F : Type) : Type :=
| GaussHermite (_order : Z) (_options : gmap string pyatom)
    (_number_nodes : nat) (_nodes _weights : list (list F))
| GaussLaguerre (_order : Z) (_a : F) (_options : gmap string pyatom)
    (_number_nodes : nat) (_nodes _weights : list (list F))
| TensorProduct (_dimension : nat) (_qrs : list (QuadratureRule F))
    (_options : gmap string pyatom)
    (_number_nodes : nat) (_nodes : list (list F)) (_weights : list F).
Arguments GaussHermite {F} _ _ _ _ _.
Arguments GaussLaguerre {F} _ _ _ _ _ _.
Arguments TensorProduct {F} _ _ _ _ _ _.

(** A call of the root finder of [scipy.special.orthogonal]. *)
Inductive roots_call (F : Type) : Type :=
| h_roots (n : Z)
| la_roots (n : Z) (a : F).
Arguments h_roots {F} n.
Arguments la_roots {F} n a.

(** A constructor run: it returns, raises, or calls the root finder and
    goes on with the nodes and weights it is given.  Node and weight
    arrays exist only after such a call. *)
Inductive build (F A : Type) : Type :=
| Built (a : A)
| Failed (e : exn)
| Roots (c : roots_call F) (k : list F → list F → build F A).
Arguments Built {F A} a.
Arguments Failed {F A} e.
Arguments Roots {F A} c k.

Fixpoint build_bind {F A B} (b : build F A) (f : A → build F B) : build F B :=
  match b with
  | Built a => f a
  | Failed e => Failed e
  | Roots c k => Roots c (λ nodes weights, build_bind (k nodes weights) f)
  end.

(** Running a constructor against a root finder. *)
Fixpoint run {F A} (rf : roots_call F → result (list F * list F)) (b : build F A)
  : result A :=
  match b with
  | Built a => Ok a
  | Failed e => Raise e
  | Roots c k =>
      match rf c with
      | Ok (nodes, weights) => run rf (k nodes weights)
      | Raise e => Raise e
      end
  end.

(** The reconstruction data returned by [get_description]: a dictionary
    whose entry ["type"] selects the class; the remaining entries are the
    fields of the constructor. *)
Inductive description (F : Type) : Type :=
| DescGaussHermite (dimension : Z) (order : Z) (options : gmap string pyatom)
| DescGaussLaguerre (dimension : Z) (order : Z) (a : F) (options : gmap string pyatom)
| DescTensorProduct (dimension : Z) (qr_rules : list (description F))
    (options : gmap string pyatom).
Arguments DescGaussHermite {F} _ _ _.
Arguments DescGaussLaguerre {F} _ _ _ _.
Arguments DescTensorProduct {F} _ _ _.

Section Rules.
Context {F : Type} `{Numeric F}.

Definition get_number_nodes (r : QuadratureRule F) : nat :=
  match r with
  | GaussHermite _ _ n _ _ => n
  | GaussLaguerre _ _ _ n _ _ => n
  | TensorProduct _ _ _ n _ _ => n
  end.

Definition get_nodes (r : QuadratureRule F) : ndvalue F :=
  match r with
  | GaussHermite _ _ _ nodes _ => Mat nodes
  | GaussLaguerre _ _ _ _ nodes _ => Mat nodes
  | TensorProduct _ _ _ _ nodes _ => Mat nodes
  end.

Definition get_weights (r : QuadratureRule F) : ndvalue F :=
  match r with
  | GaussHermite _ _ _ _ weights => Mat weights
  | GaussLaguerre _ _ _ _ _ weights => Mat weights
  | TensorProduct _ _ _ _ _ weights => Vec weights
  end.

(** *** The Hermite function recursion *)

(** [pi**(-0.25) * exp(-0.5*nodes**2)] *)
Definition hermite_row0 (nodes : list F) : list F :=
  (λ x, (np_pi ** lit (- 1 # 4) * np_exp (lit (- 1 # 2) * x ** of_Z 2))%np) <$> nodes.

(** [sqrt(2.0) * nodes * H[0]] *)
Definition hermite_row1 (nodes H0 : list F) : list F :=
  zip_with (λ x h0, (np_sqrt (lit 2) * x * h0)%np) nodes H0.

(** [sqrt(2.0/k) * nodes * H[k-1] - sqrt((k-1.0)/k) * H[k-2]] *)
Definition hermite_rowk (k : nat) (nodes Hk1 Hk2 : list F) : list F :=
  let kf := of_Z (Z.of_nat k) in
  zip_with np_sub
    (zip_with (λ x h1, (np_sqrt (lit 2 / kf) * x * h1)%np) nodes Hk1)
    ((λ h2, (np_sqrt ((kf - lit 1) / kf) * h2)%np) <$> Hk2).

(** [H[k]] *)
Definition row (H : list (list F)) (k : nat) : list F := default [] (H !! k).

(** One turn of [for k in xrange(2, rows): H[k] = ...] *)
Definition hermite_step (nodes : list F) (H : list (list F)) (k : nat)
  : list (list F) :=
  <[k := hermite_rowk k nodes (row H (k - 1)) (row H (k - 2))]> H.

End Rules.

Module GaussHermiteQR.
Section GaussHermiteQR.
Context {F : Type} `{Numeric F}.

Definition _hermite_recursion (order : Z) (nodes : list F) : list (list F) :=
  let H := replicate (Z.to_nat order) (zeros (length nodes)) in
  let H := <[0%nat := hermite_row0 nodes]> H in
  if bool_decide (order > 1)%Z
  then
    let H := <[1%nat := hermite_row1 nodes (row H 0)]> H in
    foldl (hermite_step nodes) H (seq 2 (Z.to_nat order - 2))
  else H.

Definition __init__ (order : Z) (options : gmap string pyatom)
  : build F (QuadratureRule F) :=
  (* Quadrature has to have at least a single (node,weight) pair. *)
  if negb (bool_decide (order > 0)%Z)
  then Failed ValueError
  else
    Roots (h_roots order) (λ nodes weights,
      let number_nodes := length nodes in
      let h := default [] (last (_hermite_recursion order (np_real <$> nodes))) in
      let weights := (λ hi, (lit 1 / (hi ** of_Z 2 * of_Z order))%np) <$> h in
      Built (GaussHermite order options number_nodes [nodes] [weights])).

End GaussHermiteQR.
End GaussHermiteQR.

Module GaussLaguerreQR.
Section GaussLaguerreQR.
Context {F : Type} `{Numeric F}.

Definition _hermite_recursion (order : Z) (nodes : list F) : list (list F) :=
  let H := replicate (Z.to_nat (2 * order)) (zeros (length nodes)) in
  let H := <[0%nat := hermite_row0 nodes]> H in
  if bool_decide (order > 1)%Z
  then
    let H := <[1%nat := hermite_row1 nodes (row H 0)]> H in
    foldl (hermite_step nodes) H (seq 2 (Z.to_nat (2 * order) - 2))
  else H.

(** The transformed quadrature weights. *)
Definition transform_weights (order : Z) (nodes : list F) (h : list (list F))
  : list F :=
  let c := (np_sqrt (lit 2 * of_Z order - lit 1)
            / (np_sqrt (lit 2) * (of_Z (order ^ 2) - of_Z order / lit 2)))%np in
  zip_with (λ sx hh, (c * sx / hh)%np)
    (np_sqrt <$> nodes)
    (zip_with np_mul (row h (Z.to_nat (2 * order - 2)))
                     (row h (Z.to_nat (2 * order - 1)))).

Definition __init__ (order : Z) (a : F) (options : gmap string pyatom)
  : build F (QuadratureRule F) :=
  (* Qudrature has to have at least a single (node,weight) pair. *)
  if negb (bool_decide (order > 0)%Z)
  then Failed ValueError
  else
    Roots (la_roots order a) (λ nodes weights,
      let number_nodes := length nodes in
      let h := _hermite_recursion order (np_real <$> (np_sqrt <$> nodes)) in
      let weights := transform_weights order nodes h in
      Built (GaussLaguerre order a options number_nodes
               [np_real <$> nodes] [np_real <$> weights])).

End GaussLaguerreQR.
End GaussLaguerreQR.

(** *** Tensor products *)

Section Grids.
Context {F : Type} `{Numeric F}.

(** An array flattened in C order. *)
Definition ravel (a : ndvalue F) : list F :=
  match a with
  | Vec l => l
  | Mat rows => concat rows
  end.

Definition product (l : list nat) : nat := foldr Nat.mul 1 l.

(** Every entry repeated [n] times in place, and the whole list repeated
    [m] times. *)
Definition stretch (n : nat) (l : list F) : list F := l ≫= replicate n.
Definition tile (m : nat) (l : list F) : list F := concat (replicate m l).

(** Modelled from the spec: [Utils.meshgrid_nd] lives in another
    module of WaveBlocksND.  For the node sets of the constituents it builds "the
    D-dimensional outer grid (every combination of one node from each
    constituent)"; grid [d] holds coordinate [d] of every combination.
    Each grid is given flattened, "ordered so row-major iteration over
    constituent indices determines column order": the index of the last
    constituent varies fastest. *)
Definition meshgrid_nd (arrays : list (ndvalue F)) : list (list F) :=
  let axes := ravel <$> arrays in
  let lens := length <$> axes in
  imap (λ d axis,
          tile (product (take d lens)) (stretch (product (drop (S d) lens)) axis))
       axes.

(** The multi-index of column [c] of a grid with the given axis lengths
    (C order). *)
Definition unravel_index (lens : list nat) (c : nat) : list nat :=
  imap (λ d n, (c `div` product (drop (S d) lens)) `mod` n) lens.

(** [reduce(f, l)] without an initial value. *)
Definition reduce {A} (f : A → A → A) (l : list A) : result A :=
  match l with
  | [] => Raise TypeError
  | x :: l' => Ok (foldl f x l')
  end.

End Grids.

Module TensorProductQR.
Section TensorProductQR.
Context {F : Type} `{Numeric F}.

Definition tensor_product (rules : list (QuadratureRule F))
  : result (list (list F) * list F) :=
  (* The quadrature nodes. *)
  let nodes := meshgrid_nd (get_nodes <$> rules) in
  (* The quadrature weights. *)
  let weights := meshgrid_nd (get_weights <$> rules) in
  weights ← reduce (zip_with np_mul) weights;
  mret (nodes, weights).

Definition __init__ (rules : list (QuadratureRule F)) (options : gmap string pyatom)
  : result (QuadratureRule F) :=
  (* The dimension of the quadrature rule. *)
  let dimension := length rules in
  (* The number of nodes in this quadrature rule. *)
  number_nodes ← reduce Nat.mul (get_number_nodes <$> rules);
  (* Nodes and weights *)
  '(nodes, weights) ← tensor_product rules;
  mret (TensorProduct dimension rules options number_nodes nodes weights).

End TensorProductQR.
End TensorProductQR.

Section Descriptions.
Context {F : Type} `{Numeric F}.

(** [get_description] of the three classes; [deepcopy] of the options is
    the same dictionary as a value. *)
Fixpoint get_description (r : QuadratureRule F) : description F :=
  match r with
  | GaussHermite order options _ _ _ => DescGaussHermite 1 order options
  | GaussLaguerre order a options _ _ _ => DescGaussLaguerre 1 order a options
  | TensorProduct dimension qrs options _ _ _ =>
      DescTensorProduct (Z.of_nat dimension) (get_description <$> qrs) options
  end.

Definition build_of_result {A} (r : result A) : build F A :=
  match r with
  | Ok a => Built a
  | Raise e => Failed e
  end.

(** Modelled from the spec: the factory that builds a rule from a
    description lives in another module of WaveBlocksND.  It constructs "the
    same type with the same order, a, and options, and for the tensor
    product re-compos[es] constituents reconstructed from the nested
    qr_rules descriptions". *)
Fixpoint from_description (d : description F) : build F (QuadratureRule F) :=
  match d with
  | DescGaussHermite _ order options => GaussHermiteQR.__init__ order options
  | DescGaussLaguerre _ order a options => GaussLaguerreQR.__init__ order a options
  | DescTensorProduct _ qr_rules options =>
      build_bind
        ((fix all (ds : list (description F)) : build F (list (QuadratureRule F)) :=
            match ds with
            | [] => Built []
            | d' :: ds' =>
                build_bind (from_description d') (λ r,
                build_bind (all ds') (λ rs, Built (r :: rs)))
            end) qr_rules)
        (λ rules, build_of_result (TensorProductQR.__init__ rules options))
  end.

(** The rules that the constructors produce with the root finder [rf]:
    a Gauss rule is the result of its constructor, and a tensor product
    is the result of its constructor on rules that were constructed. *)
Fixpoint constructed (rf : roots_call F → result (list F * list F))
    (r : QuadratureRule F) : Prop :=
  match r with
  | GaussHermite order options _ _ _ =>
      run rf (GaussHermiteQR.__init__ order options) = Ok r
  | GaussLaguerre order a options _ _ _ =>
      run rf (GaussLaguerreQR.__init__ order a options) = Ok r
  | TensorProduct _ qrs options _ _ _ =>
      (fix all (rs : list (QuadratureRule F)) : Prop :=
         match rs with
         | [] => True
         | r' :: rs' => constructed rf r' ∧ all rs'
         end) qrs
      ∧ TensorProductQR.__init__ qrs options = Ok r
  end.

(** A one-dimensional rule with [n] nodes: a [(1,n)] array of nodes and
    a [(1,n)] array of weights. *)
Definition one_dimensional (r : QuadratureRule F) (nodes weights : list F) : Prop :=
  get_nodes r = Mat [nodes] ∧ get_weights r = Mat [weights] ∧
  length nodes = get_number_nodes r ∧ length weights = get_number_nodes r.

End Descriptions.

(** ** Complex numbers: the instance used for concrete inputs *)

Module Cplx.

Definition C : Type := R * R.

Definition cadd (z w : C) : C := (fst z + fst w, snd z + snd w)%R.
Definition csub (z w : C) : C := (fst z - fst w, snd z - snd w)%R.
Definition cmul (z w : C) : C :=
  (fst z * fst w - snd z * snd w, fst z * snd w + snd z * fst w)%R.
Definition cdiv (z w : C) : C :=
  let n := (fst w * fst w + snd w * snd w)%R in
  ((fst z * fst w + snd z * snd w) / n, (snd z * fst w - fst z * snd w) / n)%R.
Definition cneg (z : C) : C := (- fst z, - snd z)%R.
Definition cexp (z : C) : C := (exp (fst z) * cos (snd z), exp (fst z) * sin (snd z))%R.

Definition is_zero (z : C) : bool :=
  if Req_EM_T (fst z) 0 then (if Req_EM_T (snd z) 0 then true else false) else false.

(** The principal argument, in (-pi, pi]. *)
Definition carg (z : C) : R :=
  let (x, y) := z in
  if Rlt_dec 0 x then atan (y / x)
  else if Rlt_dec x 0 then
         (if Rle_dec 0 y then atan (y / x) + PI else atan (y / x) - PI)%R
  else if Rlt_dec 0 y then (PI / 2)%R
  else if Rlt_dec y 0 then (- (PI / 2))%R
  else 0%R.

Definition cabs (z : C) : R := sqrt (fst z * fst z + snd z * snd z).

(** The principal logarithm, and powers and roots through it. *)
Definition clog (z : C) : C := (ln (cabs z), carg z).

Definition cpow (z w : C) : C :=
  if is_zero z then (if is_zero w then (1, 0)%R else (0, 0)%R)
  else cexp (cmul w (clog z)).

Definition csqrt (z : C) : C :=
  if is_zero z then (0, 0)%R else cexp (cmul (/ 2, 0)%R (clog z)).

Definition creal (z : C) : C := (fst z, 0%R).

(** The determinant by expansion along the first row, and the inverse as
    the adjugate over the determinant. *)
Definition csign (n : nat) (z : C) : C := if Nat.even n then z else cneg z.

Fixpoint det_rec (n : nat) (A : list (list C)) : C :=
  match n, A with
  | S n', row :: rest =>
      foldr cadd (0, 0)%R
        (imap (λ j x, csign j (cmul x (det_rec n' (delete j <$> rest)))) row)
  | _, _ => (1, 0)%R
  end.

Definition cdet (A : list (list C)) : C := det_rec (length A) A.

Definition minor (A : list (list C)) (i j : nat) : list (list C) :=
  delete j <$> delete i A.

Definition cinv (A : list (list C)) : list (list C) :=
  imap (λ i row, imap (λ j _, cdiv (csign (i + j) (cdet (minor A j i))) (cdet A)) row) A.

#[global] Instance numeric : Numeric C := {|
  lit q := (Q2R q, 0%R);
  imag q := (0%R, Q2R q);
  np_pi := (PI, 0%R);
  np_add := cadd;
  np_sub := csub;
  np_mul := cmul;
  np_div := cdiv;
  np_pow := cpow;
  np_exp := cexp;
  np_sqrt := csqrt;
  np_real := creal;
  la_inv := cinv;
  la_det := cdet
|}.

(** A root finder that knows the rules of order one and two: the roots of
    [H_1], [H_2] and of the generalized Laguerre polynomial
    [L_1^(a)(x) = 1 + a - x], with the raw weights (which the constructors
    discard) left at one. *)
Definition table_roots (c : roots_call C) : result (list C * list C) :=
  match c with
  | h_roots 1 => Ok ([(0, 0)%R], [(1, 0)%R])
  | h_roots 2 => Ok ([(- / sqrt 2, 0)%R; (/ sqrt 2, 0)%R], [(1, 0)%R; (1, 0)%R])
  | la_roots 1 a => Ok ([cadd (1, 0)%R a], [(1, 0)%R])
  | _ => Raise ValueError
  end.

End Cplx.

(** ** Definitions used to state the properties *)

Import HagedornWavepacketBase.

(** A basis shape whose linear order is the order of a list of
    multi-indices. *)
Definition shape_of_list (l : list (list nat)) : BasisShape :=
  {| bs_iter := l;
     bs_lima := list_to_map (zip l (seq 0 (length l)));
     bs_basissize := length l |}.

(** The two basis shapes have a multi-index in common. *)
Definition overlapping (A B : BasisShape) : Prop :=
  ∃ k, is_Some (bs_lima A !! k) ∧ is_Some (bs_lima B !! k).

Section StatementDefinitions.
Context {F : Type} `{Numeric F}.

(** The data computed by [_resize_coefficient_storage] from the old
    coefficient vector. *)
Definition remap (bs_old bs_new : BasisShape) (old : list F) : result (list F) :=
  let insec := intersection bs_old bs_new in
  i ← array <$> result_mapM (bs_getitem bs_old) insec;
  j ← array <$> result_mapM (bs_getitem bs_new) insec;
  vals ← fancy_get old i;
  fancy_set (zeros (get_basissize bs_new)) j vals.

(** The world after [_resize_coefficient_storage], and after
    [set_basis_shape] for one component, when the new vector is [new]. *)
Definition resized (w : world F) (c : nat) (B : BasisShape) (new : list F) : world F :=
  World (set_coefficients_field
           (<[c := NdArray (length (mem w)) 0 (bs_basissize B)]> (_coefficients (self w)))
           (self w))
        (mem w ++ [new]).

Definition reshaped (w : world F) (i : nat) (B : BasisShape) (new : list F) : world F :=
  World {| _dimension := _dimension (self w);
           _eps := _eps (self w);
           _number_components := _number_components (self w);
           _basis_shapes := <[i := B]> (_basis_shapes (self w));
           _basis_sizes := get_basissize <$> <[i := B]> (_basis_shapes (self w));
           _coefficients :=
             <[i := NdArray (length (mem w)) 0 (bs_basissize B)]> (_coefficients (self w)) |}
        (mem w ++ [new]).

(** The body of the loop of [set_coefficients]. *)
Definition store_copy (index : nat) (value : ndarray) : M (world F) unit :=
  bs ← get_basis_sizes_item index;
  c ← ndarray_copy value;
  r ← reshape_column c bs;
  set_coefficients_item index r.

(** [w'] differs from [w] at most in the coefficient arrays and in newly
    allocated memory. *)
Record frame (w w' : world F) : Prop := {
  frame_dimension : _dimension (self w') = _dimension (self w);
  frame_eps : _eps (self w') = _eps (self w);
  frame_number : _number_components (self w') = _number_components (self w);
  frame_shapes : _basis_shapes (self w') = _basis_shapes (self w);
  frame_sizes : _basis_sizes (self w') = _basis_sizes (self w);
  frame_length : length (_coefficients (self w')) = length (_coefficients (self w));
  frame_mem : ∃ ext, mem w' = mem w ++ ext
}.

(** The views [vsplit] returns for a partition by block sizes. *)
Fixpoint blocks (a : ndarray) (st : nat) (sizes : list nat) : list ndarray :=
  match sizes with
  | [] => []
  | n :: sizes' => NdArray (nd_base a) (nd_offset a + st) n :: blocks a (st + n) sizes'
  end.

(** The weights of the constituents selected by a multi-index. *)
Definition selected_weights (rules : list (QuadratureRule F)) (idx : list nat) : list F :=
  zip_with (λ r i, default (lit 0) (ravel (get_weights r) !! i)) rules idx.

(** The recursion of the specification for one node [x]:
    [H[0] = pi^(-1/4) exp(-x^2/2)], [H[1] = sqrt(2) x H[0]],
    [H[k] = sqrt(2/k) x H[k-1] - sqrt((k-1)/k) H[k-2]]. *)
Definition hermite_next (k : nat) (x Hk1 Hk2 : F) : F :=
  let kf := of_Z (Z.of_nat k) in
  (np_sqrt (lit 2 / kf) * x * Hk1 - np_sqrt ((kf - lit 1) / kf) * Hk2)%np.

Fixpoint hermite_pair (k : nat) (x : F) : F * F :=
  match k with
  | 0 =>
      let h0 := (np_pi ** lit (- 1 # 4) * np_exp (lit (- 1 # 2) * x ** of_Z 2))%np in
      (h0, (np_sqrt (lit 2) * x * h0)%np)
  | S k' =>
      let p := hermite_pair k' x in
      (snd p, hermite_next (S (S k')) x (snd p) (fst p))
  end.

Definition hermite_function (k : nat) (x : F) : F := fst (hermite_pair k x).

(** The weight of the specification for one node [x] of a Gauss-Laguerre
    rule of order [order]. *)
Definition laguerre_weight (order : Z) (x : F) : F :=
  let c := (np_sqrt (lit 2 * of_Z order - lit 1)
            / (np_sqrt (lit 2) * (of_Z (order ^ 2) - of_Z order / lit 2)))%np in
  let s := np_real (np_sqrt x) in
  (c * np_sqrt x
   / (hermite_function (Z.to_nat (2 * order - 2)) s
      * hermite_function (Z.to_nat (2 * order - 1)) s))%np.

End StatementDefinitions.
Arguments frame {F} w w'.

(** ** Concrete inputs *)

Import Cplx.

Definition c0 : C := (0, 0)%R.
Definition c1 : C := (1, 0)%R.
Definition ci : C := (0, 1)%R.

(** Two basis shapes in two dimensions. *)
Definition shape_A : BasisShape := shape_of_list [[0; 0]; [1; 0]; [0; 1]]%nat.
Definition shape_B : BasisShape := shape_of_list [[0; 0]; [0; 1]; [1; 1]]%nat.

(** A basis shape that has no multi-index in common with [shape_A]. *)
Definition shape_C : BasisShape := shape_of_list [[1; 1]]%nat.

(** A wavepacket with one component, in a memory that also holds an
    array of the caller. *)
Definition packet1 : Wavepacket C :=
  {| _dimension := 2; _eps := c1; _number_components := 1;
     _basis_shapes := [shape_A]; _basis_sizes := [3%nat];
     _coefficients := [NdArray 0 0 3] |}.
Definition world1 : world C := World packet1 [[c1; ci; (2, 0)%R]; [ci; ci; c1]].

(** A parameter set with [Q] not diagonal, [P = i Q^-T], and one node. *)
Definition Q0 : list (list C) := [[c1; c1]; [c0; c1]].
Definition P0 : list (list C) := [[ci; c0]; [cneg ci; ci]].
Definition Pi0 : ParameterSet :=
  {| Pi_q := [c0; c0]; Pi_p := [c0; c0]; Pi_Q := Q0; Pi_P := P0; Pi_S := c0 |}.
Definition nodes0 : list (list C) := [[c0]; [c1]].

(** The normalization [(pi*eps**2)**(-d*0.25)] for [eps = 1] and [d = 2]. *)
Definition norm0 : C :=
  cpow (cmul (PI, 0)%R (1, 0)%R) (cmul (of_Z (- 2)) (lit (1 # 4))).

(** A wavepacket with two components whose coefficient vectors are views
    into one buffer, and two arrays of the caller, of three and of two
    entries. *)
Definition packet2 : Wavepacket C :=
  {| _dimension := 2; _eps := c1; _number_components := 2;
     _basis_shapes := [shape_A; shape_B]; _basis_sizes := [3%nat; 3%nat];
     _coefficients := [NdArray 0 0 3; NdArray 0 3 3] |}.
Definition world2 : world C :=
  World packet2 [[c1; c0; c0; c0; ci; c0]; [ci; ci; c1]; [c1; c1]].
Definition values2 : list ndarray := [NdArray 1 0 3; NdArray 2 0 2].

(** Rules built by the constructors with the root finder [table_roots]. *)
Definition built (b : build C (QuadratureRule C)) : QuadratureRule C :=
  match run table_roots b with
  | Ok r => r
  | Raise _ => GaussHermite 0 ∅ 0 [] []
  end.
Definition rule_gh2 : QuadratureRule C := built (GaussHermiteQR.__init__ 2 ∅).
Definition rule_gl1 : QuadratureRule C := built (GaussLaguerreQR.__init__ 1 c0 ∅).
Definition rule_tp : QuadratureRule C :=
  match TensorProductQR.__init__ [rule_gh2; rule_gl1] ∅ with
  | Ok r => r
  | Raise _ => GaussHermite 0 ∅ 0 [] []
  end.

(** ** Further definitions used to state properties *)

Section StoreInvariant.
Context {F : Type} `{Numeric F}.

(** The state of a wavepacket whose coefficient storage fits its basis
    shapes: one shape per component, each satisfying the contract of a
    basis shape, the cached sizes up to date, and for every component a
    readable coefficient vector of the size of its basis. *)
Record store_ok (w : world F) : Prop := {
  ok_number : Z.of_nat (length (_basis_shapes (self w))) = _number_components (self w);
  ok_wf : Forall wf_shape (_basis_shapes (self w));
  ok_sizes : _basis_sizes (self w) = get_basissize <$> _basis_shapes (self w);
  ok_coefficients :
    Forall2 (λ c n, nd_size c = n ∧ is_Some (read (mem w) c))
            (_coefficients (self w)) (_basis_sizes (self w))
}.
End StoreInvariant.
Arguments store_ok {F} w.

Section FurtherStatementDefinitions.
Context {F : Type} `{Numeric F}.

(** The body of the loop of [set_basis_shape] for all components. *)
Definition reshape_component (index : nat) (bsnew : BasisShape) : M (world F) unit :=
  bs_old ← get_basis_shapes_item index;
  _resize_coefficient_storage index bs_old bsnew;;
  set_basis_shapes_item index bsnew.

(** The coefficient vectors fit the basis shapes (the cached sizes
    aside). *)
Definition fits (w : world F) : Prop :=
  Forall wf_shape (_basis_shapes (self w)) ∧
  Forall2 (λ c bs, nd_size c = bs_basissize bs ∧ is_Some (read (mem w) c))
          (_coefficients (self w)) (_basis_shapes (self w)).

(** The Gauss-Hermite weight of the source for one node [x] of a rule of
    order [order]: [1.0 / (h**2 * order)] with [h] the Hermite function
    of degree [order - 1] at the real part of [x]. *)
Definition gauss_hermite_weight (order : Z) (x : F) : F :=
  (lit 1 / (hermite_function (Z.to_nat (order - 1)) (np_real x) ** of_Z 2
            * of_Z order))%np.

(** An array of shape [(D, N)]: [D] rows of [N] entries. *)
Definition has_shape (A : list (list F)) (D N : nat) : Prop :=
  length A = D ∧ Forall (λ r, length r = N) A.

End FurtherStatementDefinitions.

(** ** Further concrete inputs *)

(** The parameter set of a one-dimensional Gaussian at [q0] with momentum
    [p0]: [Q = 1], [P = i]. *)
Definition Pi_gauss (q0 p0 : R) : ParameterSet :=
  {| Pi_q := [(q0, 0%R)]; Pi_p := [(p0, 0%R)]; Pi_Q := [[c1]]; Pi_P := [[ci]];
     Pi_S := c0 |}.
Definition packet_1d : Wavepacket C :=
  {| _dimension := 1; _eps := c1; _number_components := 1;
     _basis_shapes := [shape_of_list [[0%nat]; [1%nat]]]; _basis_sizes := [2%nat];
     _coefficients := [NdArray 0 0 2] |}.

(** A root finder that also knows the roots [2 - sqrt 2] and [2 + sqrt 2]
    of the Laguerre polynomial [L_2]. *)
Definition table_roots2 (c : roots_call C) : result (list C * list C) :=
  match c with
  | la_roots 2 _ => Ok ([(2 - sqrt 2, 0)%R; (2 + sqrt 2, 0)%R], [(1, 0)%R; (1, 0)%R])
  | _ => table_roots c
  end.

(** The root finder [la_roots(n, alpha)] of SciPy where the constructor
    of [GaussLaguerreQR] calls it with [n = 1]: it refuses [alpha < -1]
    with [ValueError], and otherwise returns the node [alpha + 1] and the
    weight [gamma(alpha + 1)]; the constructor discards that weight, which
    is the parameter [mu0] here.  Other calls are answered by
    [table_roots]. *)
Definition scipy_la_roots (mu0 : C) (c : roots_call C) : result (list C * list C) :=
  match c with
  | la_roots 1 alpha =>
      if Rlt_dec (fst alpha) (-1) then Raise ValueError
      else Ok ([cadd alpha (1, 0)%R], [mu0])
  | _ => table_roots c
  end.

(** * Properties *)

(** ** Basis shapes and coefficient storage *)

Section StoreLemmas.
Context {F : Type} `{Numeric F}.

Lemma result_mapM_Forall2 {A B} (f : A → result B) (l : list A) (l' : list B) :
  Forall2 (λ x y, f x = Ok y) l l' → result_mapM f l = Ok l'.
Proof.
  induction 1 as [|x y l l' Hxy _ IH]; simpl; [done|].
  by rewrite Hxy, IH.
Qed.

Lemma set_items_spec (js : list nat) : ∀ (vals data : list F),
  NoDup js → length vals = length js → Forall (λ j, j < length data) js →
  ∃ new, set_items data js vals = Ok new ∧ length new = length data ∧
    (∀ t j v, js !! t = Some j → vals !! t = Some v → new !! j = Some v) ∧
    (∀ j, j ∉ js → new !! j = data !! j).
Proof.
  induction js as [|j js IH]; intros vals data Hnd Hlen Hall.
  - exists data. destruct vals; simpl; repeat split; try done.
  - destruct vals as [|v vals]; [done|]. simpl in *.
    apply NoDup_cons in Hnd as [Hj Hnd]. apply Forall_cons in Hall as [Hjd Hall].
    rewrite bool_decide_eq_true_2 by done.
    destruct (IH vals (<[j := v]> data)) as (new & Hrun & Hl & Hin & Hout);
      [done|lia|by rewrite length_insert|].
    exists new. rewrite Hrun, Hl, length_insert. repeat split; [|].
    + intros [|t] j' v' Hj' Hv'; simpl in *.
      * simplify_eq. rewrite Hout by done. by apply list_lookup_insert_eq.
      * eauto.
    + intros j' Hj'. apply not_elem_of_cons in Hj' as [Hne Hj'].
      rewrite Hout by done. by apply list_lookup_insert_ne.
Qed.
End StoreLemmas.

Section Remap.
Context {F : Type} `{Numeric F}.

Lemma bs_contains_true bs k : bs_contains bs k = true ↔ is_Some (bs_lima bs !! k).
Proof. unfold bs_contains. apply bool_decide_eq_true. Qed.

Lemma intersection_elem A B k :
  wf_shape A → wf_shape B →
  k ∈ intersection A B ↔ is_Some (bs_lima A !! k) ∧ is_Some (bs_lima B !! k).
Proof.
  intros HA HB. unfold intersection. case_bool_decide.
  - rewrite list_elem_of_filter, bs_contains_true, (wf_iter_lima _ HA). tauto.
  - rewrite list_elem_of_filter, bs_contains_true, (wf_iter_lima _ HB). tauto.
Qed.

Lemma intersection_NoDup A B : wf_shape A → wf_shape B → NoDup (intersection A B).
Proof.
  intros HA HB. unfold intersection.
  case_bool_decide; apply NoDup_filter; by apply wf_iter_nodup.
Qed.

Lemma intersection_overlapping A B :
  wf_shape A → wf_shape B → overlapping A B ↔ intersection A B ≠ [].
Proof.
  intros HA HB. split.
  - intros (k & Hk) Hnil. apply (intersection_elem A B k HA HB) in Hk.
    rewrite Hnil in Hk. by apply elem_of_nil in Hk.
  - intros Hne. destruct (intersection A B) as [|k l] eqn:E; [done|].
    exists k. apply (intersection_elem A B k HA HB). rewrite E. by left.
Qed.

Lemma intersection_disjoint A B :
  wf_shape A → wf_shape B → ¬ overlapping A B → intersection A B = [].
Proof.
  intros HA HB Hno. destruct (intersection A B) as [|k l] eqn:E; [done|].
  exfalso. apply Hno. apply intersection_overlapping; try done. by rewrite E.
Qed.

Lemma array_nonempty (l : list nat) : l ≠ [] → array l = IndexArray int64 l.
Proof. by destruct l. Qed.

Lemma getitem_all bs (l : list (list nat)) :
  (∀ k, k ∈ l → is_Some (bs_lima bs !! k)) →
  ∃ idx, result_mapM (bs_getitem bs) l = Ok idx ∧
         Forall2 (λ k i, bs_lima bs !! k = Some i) l idx.
Proof.
  induction l as [|k l IH]; intros Hl.
  - exists []. by split.
  - destruct (Hl k) as [i Hi]; [by left|].
    destruct IH as (idx & Hrun & Hall); [intros; apply Hl; by right|].
    exists (i :: idx). simpl. unfold bs_getitem at 1. rewrite Hi, Hrun.
    split; [done|by constructor].
Qed.

Lemma getitem_NoDup bs (l : list (list nat)) (idx : list nat) :
  wf_shape bs → NoDup l →
  Forall2 (λ k i, bs_lima bs !! k = Some i) l idx → NoDup idx.
Proof.
  intros Hbs Hnd Hall. induction Hall as [|k jk l l' Hk Hall IH]; [constructor|].
  apply NoDup_cons in Hnd as [Hk' Hnd]. constructor; [|by apply IH].
  intros Hjk. apply Hk'. apply list_elem_of_lookup in Hjk as [t Ht].
  destruct (Forall2_lookup_r _ _ _ _ _ Hall Ht) as (k2 & Hk2 & Hk2j).
  assert (k = k2) as -> by (by eapply wf_lima_inj).
  by eapply list_elem_of_lookup_2.
Qed.

Lemma get_items_all (data : list F) (idx : list nat) :
  Forall (λ i, i < length data) idx →
  ∃ vals, result_mapM (list_getitem data) idx = Ok vals ∧
          Forall2 (λ i v, data !! i = Some v) idx vals.
Proof.
  induction 1 as [|i idx Hi _ (vals & Hrun & Hall)].
  - exists []. by split.
  - destruct (lookup_lt_is_Some_2 data i Hi) as [v Hv].
    exists (v :: vals). simpl.
    unfold list_getitem at 1. rewrite Hv, Hrun. split; [done|by constructor].
Qed.

Lemma fancy_get_all (data : list F) (idx : list nat) :
  idx ≠ [] → Forall (λ i, i < length data) idx →
  ∃ vals, fancy_get data (array idx) = Ok vals ∧
          Forall2 (λ i v, data !! i = Some v) idx vals.
Proof.
  intros Hne Hall. rewrite array_nonempty by done. by apply get_items_all.
Qed.

(** What the remapped vector holds. *)
Lemma remap_spec (A B : BasisShape) (old : list F) :
  wf_shape A → wf_shape B → length old = bs_basissize A →
  overlapping A B →
  ∃ new, remap A B old = Ok new ∧ length new = bs_basissize B ∧
    (∀ k jA jB, bs_lima A !! k = Some jA → bs_lima B !! k = Some jB →
                new !! jB = old !! jA) ∧
    (∀ j, j < bs_basissize B →
          (¬ ∃ k, is_Some (bs_lima A !! k) ∧ bs_lima B !! k = Some j) →
          new !! j = Some (lit 0)).
Proof.
  intros HA HB Hold Hov. unfold remap.
  pose proof (λ k, intersection_elem A B k HA HB) as Hin.
  pose proof (intersection_NoDup A B HA HB) as Hnd.
  apply (intersection_overlapping A B HA HB) in Hov.
  destruct (getitem_all A (intersection A B)) as (i & Hi & HiA);
    [intros k Hk; by apply Hin in Hk as [? ?]|].
  destruct (getitem_all B (intersection A B)) as (j & Hj & HjB);
    [intros k Hk; by apply Hin in Hk as [? ?]|].
  assert (i ≠ []) as Hine.
  { intros ->. apply Forall2_length in HiA. by destruct (intersection A B). }
  assert (j ≠ []) as Hjne.
  { intros ->. apply Forall2_length in HjB. by destruct (intersection A B). }
  destruct (fancy_get_all old i Hine) as (vals & Hv & Hvals).
  { eapply Forall2_Forall_r; [exact HiA|]. apply Forall_forall.
    intros k _ y Hy. rewrite Hold. by eapply wf_lima_bound. }
  destruct (set_items_spec j vals (zeros (get_basissize B)))
    as (new & Hset & Hlen & Hhit & Hmiss).
  { by eapply getitem_NoDup. }
  { rewrite <- (Forall2_length _ _ _ Hvals), <- (Forall2_length _ _ _ HiA).
    by eapply Forall2_length. }
  { eapply Forall2_Forall_r; [exact HjB|]. apply Forall_forall.
    intros k _ y Hy. unfold zeros. rewrite length_replicate. by eapply wf_lima_bound. }
  exists new. simpl. unfold mbind, result_mbind, fmap, result_fmap. simpl.
  rewrite Hi. simpl. rewrite Hj. simpl.
  rewrite Hv. simpl. rewrite (array_nonempty j Hjne). unfold fancy_set. simpl.
  rewrite Hset. unfold zeros in *. rewrite length_replicate in Hlen.
  repeat split; [done| |].
  - intros k jA jB HkA HkB.
    assert (k ∈ intersection A B) as Hk by (apply Hin; eauto).
    apply list_elem_of_lookup in Hk as [t Ht].
    destruct (Forall2_lookup_l _ _ _ _ _ HiA Ht) as (jA' & HtA & ?).
    destruct (Forall2_lookup_l _ _ _ _ _ HjB Ht) as (jB' & HtB & ?).
    simplify_eq.
    destruct (Forall2_lookup_l _ _ _ _ _ Hvals HtA) as (v & Htv & Hv').
    rewrite Hv'. eauto.
  - intros jj Hjj Hno. rewrite Hmiss.
    + by apply lookup_replicate_2.
    + intros Hjin. apply Hno. apply list_elem_of_lookup in Hjin as [t Ht].
      destruct (Forall2_lookup_r _ _ _ _ _ HjB Ht) as (k & Hk & Hkj).
      exists k. split; [|done]. apply list_elem_of_lookup_2 in Hk. by apply Hin in Hk as [? _].
Qed.

(** Without a common multi-index the index arrays are [array([])]. *)
Lemma remap_disjoint (A B : BasisShape) (old : list F) :
  wf_shape A → wf_shape B → ¬ overlapping A B → remap A B old = Raise IndexError.
Proof.
  intros HA HB Hno. unfold remap. by rewrite (intersection_disjoint A B HA HB Hno).
Qed.
End Remap.

Section Runs.
Context {F : Type} `{Numeric F}.

Lemma read_length (h : list (list F)) a d : read h a = Some d → length d = nd_size a.
Proof.
  unfold read. destruct (h !! nd_base a) as [buf|]; simpl; [|done].
  case_bool_decide; [|done]. intros [= <-].
  rewrite length_take, length_drop. lia.
Qed.

Lemma read_alloc_old (h : list (list F)) a data d :
  read h a = Some d → read (h ++ [data]) a = Some d.
Proof.
  unfold read. destruct (h !! nd_base a) as [buf|] eqn:Hb; simpl; [|done].
  rewrite (lookup_app_l_Some _ _ _ _ Hb). done.
Qed.

Lemma read_alloc_new (h : list (list F)) data :
  read (h ++ [data]) (NdArray (length h) 0 (length data)) = Some data.
Proof.
  unfold read. simpl. rewrite list_lookup_middle by done. simpl.
  rewrite bool_decide_eq_true_2 by lia. by rewrite drop_0, firstn_all.
Qed.

Lemma write_new (h : list (list F)) zs new n :
  length new = length zs →
  write (h ++ [zs]) (NdArray (length h) 0 n) new = h ++ [new].
Proof.
  intros Hl. unfold write. simpl. rewrite list_lookup_middle by done.
  rewrite Hl, drop_all, app_nil_r.
  rewrite insert_app_r_alt by done. by rewrite Nat.sub_diag.
Qed.

Lemma resize_run (w : world F) c A B cold old new :
  _coefficients (self w) !! c = Some cold →
  read (mem w) cold = Some old →
  remap A B old = Ok new →
  length new = bs_basissize B →
  _resize_coefficient_storage c A B w = (Ok tt, resized w c B new).
Proof.
  intros Hc Hr Hm Hl. unfold remap in Hm. unfold _resize_coefficient_storage.
  unfold mbind, M_bind, result_mbind, fmap, result_fmap, lift in *. simpl in *.
  destruct (result_mapM (bs_getitem A) (intersection A B)) as [i|]; [simpl in *|done].
  destruct (result_mapM (bs_getitem B) (intersection A B)) as [j|]; [simpl in *|done].
  destruct (fancy_get old (array i)) as [vals|] eqn:Hv; [simpl in *|done].
  unfold load, list_getitem. simpl. rewrite Hc. simpl.
  rewrite (read_alloc_old _ _ _ _ Hr). simpl. rewrite Hv.
  rewrite read_alloc_new. simpl. rewrite Hm.
  unfold set_coefficients_item, store, modify, gets, list_getitem. simpl.
  unfold mbind, M_bind. simpl.
  rewrite bool_decide_eq_true_2 by (by eapply lookup_lt_Some).
  unfold resized. simpl.
  rewrite write_new by (by rewrite Hl; unfold zeros; rewrite length_replicate).
  unfold zeros. by rewrite length_replicate.
Qed.

(** The run for shapes without a common multi-index: the new array is
    allocated, and reading the old one with the index array [array([])]
    raises. *)
Lemma resize_disjoint_run (w : world F) c A B cold old :
  _coefficients (self w) !! c = Some cold →
  read (mem w) cold = Some old →
  intersection A B = [] →
  _resize_coefficient_storage c A B w
  = (Raise IndexError, World (self w) (mem w ++ [zeros (bs_basissize B)])).
Proof.
  intros Hc Hr Hnil. unfold _resize_coefficient_storage. rewrite Hnil.
  unfold mbind, M_bind, result_mbind, fmap, result_fmap, lift. simpl.
  unfold load, list_getitem. simpl. rewrite Hc. simpl.
  by rewrite (read_alloc_old _ _ _ _ Hr).
Qed.
End Runs.

Section BasisShapeTheorems.
Context {F : Type} `{Numeric F}.

Lemma set_basis_shape_run (w : world F) (i : nat) A B cold old new :
  (Z.of_nat i < _number_components (self w))%Z →
  _basis_shapes (self w) !! i = Some A →
  _coefficients (self w) !! i = Some cold →
  read (mem w) cold = Some old →
  remap A B old = Ok new →
  length new = bs_basissize B →
  set_basis_shape (Some (Z.of_nat i)) B w = (Ok tt, reshaped w i B new).
Proof.
  intros Hi HA Hc Hr Hm Hl. unfold set_basis_shape.
  unfold mbind, M_bind, gets. simpl.
  rewrite bool_decide_eq_true_2 by lia. simpl. rewrite Nat2Z.id.
  unfold get_basis_shapes_item, mbind, M_bind, gets, lift, list_getitem. simpl.
  rewrite HA. rewrite (resize_run w i A B cold old new) by done.
  unfold set_basis_shapes_item, mbind, M_bind, gets, modify. simpl.
  rewrite bool_decide_eq_true_2 by (by eapply lookup_lt_Some). done.
Qed.

Lemma set_basis_shape_disjoint_run (w : world F) (i : nat) A B cold old :
  (Z.of_nat i < _number_components (self w))%Z →
  _basis_shapes (self w) !! i = Some A →
  _coefficients (self w) !! i = Some cold →
  read (mem w) cold = Some old →
  wf_shape A → wf_shape B → ¬ overlapping A B →
  set_basis_shape (Some (Z.of_nat i)) B w
  = (Raise IndexError, World (self w) (mem w ++ [zeros (bs_basissize B)])).
Proof.
  intros Hi HA Hc Hr HwA HwB Hno. unfold set_basis_shape.
  unfold mbind, M_bind, gets. simpl.
  rewrite bool_decide_eq_true_2 by lia. simpl. rewrite Nat2Z.id.
  unfold get_basis_shapes_item, mbind, M_bind, gets, lift, list_getitem. simpl.
  rewrite HA.
  by rewrite (resize_disjoint_run w i A B cold old Hc Hr
                (intersection_disjoint A B HwA HwB Hno)).
Qed.

(** C2, at shapes without a common multi-index: with [A] the basis shape
    of component [i], [old] its coefficient vector and [B] a basis shape
    that has no multi-index in common with [A], [set_basis_shape(B, i)]
    raises [IndexError], because the index arrays are [array([])], of
    dtype float64, where the claim has a new vector of [|B|] zeros.  The
    component keeps its basis shape and its coefficient vector, and no
    other attribute and no array changes. *)
Theorem set_basis_shape_disjoint_raises
    (w : world F) (i : nat) (A B : BasisShape) (cold : ndarray) (old : list F) :
  (Z.of_nat i < _number_components (self w))%Z →
  _basis_shapes (self w) !! i = Some A →
  _coefficients (self w) !! i = Some cold →
  read (mem w) cold = Some old →
  wf_shape A → wf_shape B →
  ¬ overlapping A B →
  ∃ w',
    set_basis_shape (Some (Z.of_nat i)) B w = (Raise IndexError, w') ∧
    self w' = self w ∧
    ∀ a d, read (mem w) a = Some d → read (mem w') a = Some d.
Proof.
  intros Hi HA Hc Hr HwA HwB Hno. eexists. split.
  - by eapply set_basis_shape_disjoint_run.
  - split; [done|]. intros a d Ha. simpl. by apply read_alloc_old.
Qed.

(** C8, at shapes without a common multi-index: changing the basis shape
    of component [i] from [A] to such a [B] and back to [A] stops at the
    first step, with [IndexError]; the component still has the shape [A]
    and its coefficient vector [old], entry for entry, where the claim has
    a vector in which every entry is zero. *)
Theorem basis_shape_there_and_back_disjoint
    (w : world F) (i : nat) (A B : BasisShape) (cold : ndarray) (old : list F) :
  (Z.of_nat i < _number_components (self w))%Z →
  _basis_shapes (self w) !! i = Some A →
  _coefficients (self w) !! i = Some cold →
  read (mem w) cold = Some old →
  wf_shape A → wf_shape B →
  ¬ overlapping A B →
  ∃ w',
    (set_basis_shape (Some (Z.of_nat i)) B;;
     set_basis_shape (Some (Z.of_nat i)) A) w = (Raise IndexError, w') ∧
    _basis_shapes (self w') !! i = Some A ∧
    _coefficients (self w') !! i = Some cold ∧
    read (mem w') cold = Some old.
Proof.
  intros Hi HA Hc Hr HwA HwB Hno. eexists. split.
  - unfold mbind at 1, M_bind at 1.
    by rewrite (set_basis_shape_disjoint_run w i A B cold old).
  - simpl. split; [done|]. split; [done|]. by apply read_alloc_old.
Qed.

(** X20: with [A] the basis shape of component [i], [old] its
    coefficient vector and [B] a basis shape that has a multi-index in
    common with [A], [set_basis_shape(B, i)] succeeds, makes [B] the
    basis shape of component [i], and replaces the coefficient vector by
    an array in a newly allocated buffer, of length [|B|], in which the
    entry at [B[k]] is the old entry at [A[k]] for every [k] in both
    shapes and every other entry is zero. *)
Theorem set_basis_shape_remaps_coefficients
    (w : world F) (i : nat) (A B : BasisShape) (cold : ndarray) (old : list F) :
  (Z.of_nat i < _number_components (self w))%Z →
  _basis_shapes (self w) !! i = Some A →
  _coefficients (self w) !! i = Some cold →
  read (mem w) cold = Some old →
  length old = bs_basissize A →
  wf_shape A → wf_shape B →
  overlapping A B →
  ∃ w' cnew new,
    set_basis_shape (Some (Z.of_nat i)) B w = (Ok tt, w') ∧
    _basis_shapes (self w') !! i = Some B ∧
    _coefficients (self w') !! i = Some cnew ∧
    nd_base cnew = length (mem w) ∧ mem w' = mem w ++ [new] ∧
    read (mem w') cnew = Some new ∧
    length new = bs_basissize B ∧
    (∀ k jA jB, bs_lima A !! k = Some jA → bs_lima B !! k = Some jB →
                new !! jB = old !! jA) ∧
    (∀ j, j < bs_basissize B →
          (¬ ∃ k, is_Some (bs_lima A !! k) ∧ bs_lima B !! k = Some j) →
          new !! j = Some (lit 0)).
Proof.
  intros Hi HA Hc Hr Hold HwA HwB Hov.
  destruct (remap_spec A B old HwA HwB Hold Hov) as (new & Hm & Hl & Hboth & Hrest).
  exists (reshaped w i B new), (NdArray (length (mem w)) 0 (bs_basissize B)), new.
  split; [by eapply set_basis_shape_run|].
  simpl. split; [apply list_lookup_insert_eq; by eapply lookup_lt_Some|].
  split; [apply list_lookup_insert_eq; by eapply lookup_lt_Some|].
  repeat split; try done.
  rewrite <- Hl. apply read_alloc_new.
Qed.

Lemma overlapping_sym (A B : BasisShape) : overlapping A B → overlapping B A.
Proof. intros (k & HA & HB). by exists k. Qed.

(** X21: for basis shapes [A] and [B] with a multi-index in common,
    changing the basis shape of component [i] from [A] to [B] and back to
    [A] leaves a coefficient vector in which every multi-index of [A]
    that is also in [B] has its original value and every multi-index of
    [A] that is not in [B] is zero. *)
Theorem basis_shape_there_and_back
    (w : world F) (i : nat) (A B : BasisShape) (cold : ndarray) (old : list F) :
  (Z.of_nat i < _number_components (self w))%Z →
  _basis_shapes (self w) !! i = Some A →
  _coefficients (self w) !! i = Some cold →
  read (mem w) cold = Some old →
  length old = bs_basissize A →
  wf_shape A → wf_shape B →
  overlapping A B →
  ∃ w1 w2 c2 final,
    set_basis_shape (Some (Z.of_nat i)) B w = (Ok tt, w1) ∧
    set_basis_shape (Some (Z.of_nat i)) A w1 = (Ok tt, w2) ∧
    _basis_shapes (self w2) !! i = Some A ∧
    _coefficients (self w2) !! i = Some c2 ∧
    read (mem w2) c2 = Some final ∧
    length final = bs_basissize A ∧
    ∀ k jA, bs_lima A !! k = Some jA →
      final !! jA = if bs_contains B k then old !! jA else Some (lit 0).
Proof.
  intros Hi HA Hc Hr Hold HwA HwB Hov.
  destruct (remap_spec A B old HwA HwB Hold Hov) as (new & Hm & Hl & Hboth & Hrest).
  destruct (remap_spec B A new HwB HwA Hl (overlapping_sym A B Hov))
    as (fin & Hm' & Hl' & Hboth' & Hrest').
  pose proof (lookup_lt_Some _ _ _ HA) as HiA.
  pose proof (lookup_lt_Some _ _ _ Hc) as Hic.
  set (w1 := reshaped w i B new).
  exists w1, (reshaped w1 i A fin), (NdArray (length (mem w1)) 0 (bs_basissize A)), fin.
  split; [by eapply set_basis_shape_run|].
  split.
  { eapply set_basis_shape_run; try done; simpl.
    - by apply list_lookup_insert_eq.
    - by apply list_lookup_insert_eq.
    - rewrite <- Hl. apply read_alloc_new. }
  simpl. split; [apply list_lookup_insert_eq; by rewrite length_insert|].
  split; [apply list_lookup_insert_eq; by rewrite length_insert|].
  split; [rewrite <- Hl'; apply (read_alloc_new (mem w ++ [new]))|].
  split; [done|].
  intros k jA HkA. destruct (bs_contains B k) eqn:HkB.
  - apply bs_contains_true in HkB as [jB HkB].
    rewrite (Hboth' k jB jA HkB HkA). eauto.
  - apply Hrest'; [by eapply wf_lima_bound|].
    intros (k' & Hk'B & Hk'A).
    assert (k' = k) as -> by (by eapply (wf_lima_inj A)).
    apply bs_contains_true in Hk'B. congruence.
Qed.
End BasisShapeTheorems.

Section WholeStore.
Context {F : Type} `{Numeric F}.

Lemma frame_refl (w : world F) : frame w w.
Proof. split; try done. exists []. by rewrite app_nil_r. Qed.

Lemma frame_trans (w1 w2 w3 : world F) : frame w1 w2 → frame w2 w3 → frame w1 w3.
Proof.
  intros [? ? ? ? ? ? [e1 He1]] [? ? ? ? ? ? [e2 He2]]. split; try congruence.
  exists (e1 ++ e2). by rewrite He2, He1, app_assoc.
Qed.

Lemma frame_read (w w' : world F) a d : frame w w' → read (mem w) a = Some d → read (mem w') a = Some d.
Proof.
  intros [_ _ _ _ _ _ [ext ->]]. unfold read.
  destruct (mem w !! nd_base a) as [buf|] eqn:Hb; simpl; [|done].
  by rewrite (lookup_app_l_Some _ _ _ _ Hb).
Qed.

Lemma store_copy_ok (w : world F) index v d :
  _basis_sizes (self w) !! index = Some (nd_size v) →
  read (mem w) v = Some d →
  index < length (_coefficients (self w)) →
  store_copy index v w =
    (Ok tt, World (set_coefficients_field
                     (<[index := NdArray (length (mem w)) 0 (nd_size v)]>
                        (_coefficients (self w))) (self w))
                  (mem w ++ [d])).
Proof.
  intros Hs Hr Hi. unfold store_copy, get_basis_sizes_item, ndarray_copy, load, new_array.
  unfold mbind, M_bind, gets, lift, list_getitem. simpl. rewrite Hs, Hr. simpl.
  rewrite (read_length _ _ _ Hr).
  unfold reshape_column. simpl. rewrite bool_decide_eq_true_2 by done. simpl.
  unfold set_coefficients_item, mbind, M_bind, gets, modify. simpl.
  by rewrite bool_decide_eq_true_2 by done.
Qed.

Lemma store_copy_mismatch (w : world F) index v d bs :
  _basis_sizes (self w) !! index = Some bs →
  read (mem w) v = Some d →
  nd_size v ≠ bs →
  store_copy index v w = (Raise ValueError, World (self w) (mem w ++ [d])).
Proof.
  intros Hs Hr Hne. unfold store_copy, get_basis_sizes_item, ndarray_copy, load, new_array.
  unfold mbind, M_bind, gets, lift, list_getitem. simpl. rewrite Hs, Hr. simpl.
  rewrite (read_length _ _ _ Hr).
  unfold reshape_column. simpl. by rewrite bool_decide_eq_false_2 by done.
Qed.

Lemma store_loop_stops (good : list ndarray) : ∀ (w : world F) index bad rest bs dbad,
  (∀ t v, good !! t = Some v →
      _basis_sizes (self w) !! (index + t) = Some (nd_size v) ∧
      is_Some (read (mem w) v)) →
  index + length good < length (_coefficients (self w)) →
  _basis_sizes (self w) !! (index + length good) = Some bs →
  read (mem w) bad = Some dbad →
  nd_size bad ≠ bs →
  ∃ w', for_enumerate store_copy index (good ++ bad :: rest) w = (Raise ValueError, w') ∧
    frame w w' ∧
    (∀ t, t < index ∨ index + length good ≤ t →
          _coefficients (self w') !! t = _coefficients (self w) !! t) ∧
    (∀ t v d, good !! t = Some v → read (mem w) v = Some d →
       ∃ c, _coefficients (self w') !! (index + t) = Some c ∧
            read (mem w') c = Some d ∧ length (mem w) ≤ nd_base c).
Proof.
  induction good as [|v good IH]; intros w index bad rest bs dbad Hgood Hlen Hbs Hbad Hne.
  - simpl in *. rewrite Nat.add_0_r in Hbs.
    unfold mbind, M_bind. rewrite (store_copy_mismatch w index bad dbad bs) by done.
    eexists. split; [done|]. split; [|split].
    + split; try done. by eexists.
    + done.
    + intros t v d Hv. done.
  - destruct (Hgood 0 v eq_refl) as [Hs [d Hd]]. rewrite Nat.add_0_r in Hs.
    simpl in Hlen.
    set (w1 := World (set_coefficients_field
                     (<[index := NdArray (length (mem w)) 0 (nd_size v)]>
                        (_coefficients (self w))) (self w))
                  (mem w ++ [d])).
    assert (frame w w1) as Hf.
    { split; try done; simpl; [by rewrite length_insert|by eexists]. }
    destruct (IH w1 (S index) bad rest bs dbad) as (w' & Hrun & Hf' & Hout & Hin).
    { intros t v' Hv'. destruct (Hgood (S t) v' Hv') as [Hs' [d' Hd']].
      simpl. rewrite <- Nat.add_succ_r. split; [done|]. exists d'. by apply read_alloc_old. }
    { simpl. rewrite length_insert. lia. }
    { simpl. by rewrite <- Nat.add_succ_r. }
    { by apply read_alloc_old. }
    { done. }
    exists w'. split; [|split; [|split]].
    + simpl. unfold mbind, M_bind. rewrite (store_copy_ok w index v d) by (done || lia).
      exact Hrun.
    + by eapply frame_trans.
    + intros t Ht. simpl in Ht. rewrite Hout by lia. simpl.
      apply list_lookup_insert_ne. lia.
    + intros [|t] v' d' Hv' Hd'.
      * simpl in Hv'. injection Hv' as <-. rewrite Hd in Hd'. injection Hd' as <-.
        rewrite Nat.add_0_r. rewrite Hout by lia. simpl.
        rewrite list_lookup_insert_eq by lia. eexists. split; [done|]. split; [|done].
        eapply (frame_read w1 w'); [done|]. simpl.
        rewrite <- (read_length _ _ _ Hd). apply read_alloc_new.
      * simpl in Hv'. destruct (Hin t v' d' Hv') as (c & Hc & Hrc & Hfresh).
        { by apply read_alloc_old. }
        exists c. rewrite Nat.add_succ_r. split; [done|]. split; [done|].
        simpl in Hfresh. rewrite length_app in Hfresh. lia.
Qed.

Lemma set_basis_shape_count_mismatch (w : world F) (shapes : list BasisShape) :
  Z.of_nat (length shapes) ≠ _number_components (self w) →
  set_basis_shape None shapes w = (Raise ValueError, w).
Proof.
  intros Hne. unfold set_basis_shape, mbind, M_bind, gets. simpl.
  by rewrite bool_decide_eq_false_2 by done.
Qed.

Lemma set_coefficients_count_mismatch (w : world F) (values : list ndarray) :
  Z.of_nat (length values) ≠ _number_components (self w) →
  set_coefficients None values w = (Raise ValueError, w).
Proof.
  intros Hne. unfold set_coefficients, mbind, M_bind, gets. simpl.
  by rewrite bool_decide_eq_false_2 by done.
Qed.

(** C5: for every valid component index, [set_coefficients] with that
    component raises [UnboundLocalError], whatever array is supplied
    (of the matching length or not), and leaves the wavepacket and the
    memory as they were: no copy is stored and no shape mismatch is
    reported. *)
Theorem set_coefficients_single_component_raises
    (w : world F) (component : Z) (values : ndarray) (bs : nat) :
  (0 ≤ component < _number_components (self w))%Z →
  _basis_sizes (self w) !! Z.to_nat component = Some bs →
  set_coefficients (Some component) values w = (Raise UnboundLocalError, w).
Proof.
  intros Hc Hbs. unfold set_coefficients, mbind, M_bind, gets. simpl.
  rewrite bool_decide_eq_false_2, bool_decide_eq_false_2 by lia. simpl.
  unfold get_basis_sizes_item, mbind, M_bind, gets, lift, list_getitem. simpl.
  rewrite Hbs. done.
Qed.
End WholeStore.

Section WholeStoreTheorems.
Context {F : Type} `{Numeric F}.

Lemma set_coefficients_all_loop (w : world F) (values : list ndarray) :
  Z.of_nat (length values) = _number_components (self w) →
  set_coefficients None values w = for_enumerate store_copy 0 values w.
Proof.
  intros Hn. unfold set_coefficients, mbind, M_bind, gets. simpl.
  by rewrite bool_decide_eq_true_2 by done.
Qed.

(** C7, as the code has it: a whole-store call with a list of the wrong
    length fails before anything is changed.  [set_coefficients] with a
    list of the right length that holds an array of the wrong size fails
    when the loop reaches that array: the components before it hold
    copies of the arrays supplied for them, and the components from it
    on are as they were. *)
Theorem whole_store_failures (w : world F) :
  (∀ shapes : list BasisShape,
     Z.of_nat (length shapes) ≠ _number_components (self w) →
     set_basis_shape None shapes w = (Raise ValueError, w)) ∧
  (∀ values : list ndarray,
     Z.of_nat (length values) ≠ _number_components (self w) →
     set_coefficients None values w = (Raise ValueError, w)) ∧
  (∀ (good : list ndarray) (bad : ndarray) (rest : list ndarray) bs dbad,
     Z.of_nat (length (good ++ bad :: rest)) = _number_components (self w) →
     length good < length (_coefficients (self w)) →
     (∀ t v, good !! t = Some v →
        _basis_sizes (self w) !! t = Some (nd_size v) ∧ is_Some (read (mem w) v)) →
     _basis_sizes (self w) !! length good = Some bs →
     read (mem w) bad = Some dbad →
     nd_size bad ≠ bs →
     ∃ w', set_coefficients None (good ++ bad :: rest) w = (Raise ValueError, w') ∧
       frame w w' ∧
       (∀ t, length good ≤ t →
          _coefficients (self w') !! t = _coefficients (self w) !! t) ∧
       (∀ t v d, good !! t = Some v → read (mem w) v = Some d →
          ∃ c, _coefficients (self w') !! t = Some c ∧
               read (mem w') c = Some d ∧ length (mem w) ≤ nd_base c)).
Proof.
  split; [|split].
  - apply set_basis_shape_count_mismatch.
  - apply set_coefficients_count_mismatch.
  - intros good bad rest bs dbad Hn Hlen Hgood Hbs Hbad Hne.
    rewrite set_coefficients_all_loop by done.
    destruct (store_loop_stops good w 0 bad rest bs dbad) as (w' & Hrun & Hf & Hout & Hin);
      try done.
    exists w'. split; [done|]. split; [done|]. split.
    + intros t Ht. apply Hout. lia.
    + intros t v d Hv Hd. apply (Hin t v d Hv Hd).
Qed.
End WholeStoreTheorems.

Section CoefficientVector.
Context {F : Type} `{Numeric F}.

Lemma length_cumsum_from (l : list nat) : ∀ acc, length (cumsum_from acc l) = length l.
Proof. induction l as [|n l IH]; intros acc; simpl; [done|]. by rewrite IH. Qed.

Lemma cumsum_points (sizes : list nat) : ∀ acc,
  sizes ≠ [] →
  drop_last (cumsum_from acc sizes) ++ [acc + sum_list sizes] = cumsum_from acc sizes.
Proof.
  unfold drop_last. induction sizes as [|n sizes IH]; intros acc Hne; [done|].
  destruct sizes as [|m sizes].
  - simpl. f_equal. lia.
  - specialize (IH (acc + n) ltac:(done)).
    remember (m :: sizes) as tl eqn:Htl. simpl.
    assert (length (cumsum_from (acc + n) tl) = S (length sizes)) as Hl
      by (by rewrite length_cumsum_from, Htl).
    rewrite Hl in *. simpl in *. rewrite Nat.sub_0_r in IH.
    f_equal. rewrite <- IH at 2. do 2 f_equal. lia.
Qed.

Lemma sub_arrays_blocks (a : ndarray) (sizes : list nat) : ∀ st,
  st + sum_list sizes ≤ nd_size a →
  sub_arrays a st (cumsum_from st sizes) = blocks a st sizes.
Proof.
  induction sizes as [|n sizes IH]; intros st Hb; [done|]. simpl in *.
  rewrite IH by lia. f_equal. unfold slice. f_equal; lia.
Qed.

Lemma blocks_lookup (a : ndarray) (sizes : list nat) : ∀ st i n,
  sizes !! i = Some n →
  blocks a st sizes !! i = Some (NdArray (nd_base a) (nd_offset a + (st + sum_list (take i sizes))) n).
Proof.
  induction sizes as [|m sizes IH]; intros st [|i] n Hn; try done; simpl in *.
  - injection Hn as ->. do 2 f_equal. lia.
  - rewrite (IH _ _ _ Hn). do 2 f_equal. lia.
Qed.

Lemma read_block (h : list (list F)) (a : ndarray) data st n :
  read h a = Some data → st + n ≤ nd_size a →
  read h (NdArray (nd_base a) (nd_offset a + st) n) = Some (take n (drop st data)).
Proof.
  unfold read. simpl. destruct (h !! nd_base a) as [buf|]; simpl; [|done].
  case_bool_decide as Hb; [|done]. intros [= <-] Hn.
  rewrite bool_decide_eq_true_2 by lia. f_equal.
  rewrite skipn_firstn_comm, take_take, drop_drop. f_equal. lia.
Qed.





End CoefficientVector.

(** ** Quadrature rules *)

Section GridLemmas.
Context {F : Type} `{Numeric F}.

Lemma length_tile m (l : list F) : length (tile m l) = m * length l.
Proof.
  unfold tile. induction m as [|m IH]; simpl; [done|].
  rewrite length_app, IH. lia.
Qed.

Lemma length_stretch n (l : list F) : length (stretch n l) = n * length l.
Proof.
  unfold stretch. induction l as [|x l IH]; [simpl; lia|].
  rewrite bind_cons, length_app, length_replicate, IH. simpl. lia.
Qed.

Lemma lookup_tile m (l : list F) c :
  c < m * length l → tile m l !! c = l !! (c `mod` length l).
Proof.
  unfold tile. revert c. induction m as [|m IH]; intros c Hc; simpl in *; [lia|].
  destruct (decide (c < length l)) as [Hlt|Hge].
  - rewrite lookup_app_l by done. by rewrite Nat.mod_small.
  - rewrite lookup_app_r by lia. rewrite IH by lia.
    f_equal. rewrite <- (Nat.Div0.mod_add (c - length l) 1 (length l)).
    f_equal. lia.
Qed.

Lemma lookup_stretch n (l : list F) c :
  0 < n → stretch n l !! c = l !! (c `div` n).
Proof.
  intros Hn. unfold stretch. revert c. induction l as [|x l IH]; intros c.
  - by rewrite !lookup_nil.
  - rewrite bind_cons. destruct (decide (c < n)) as [Hlt|Hge].
    + rewrite lookup_app_l by (by rewrite length_replicate).
      rewrite Nat.div_small by done. simpl. by apply lookup_replicate_2.
    + rewrite lookup_app_r by (rewrite length_replicate; lia).
      rewrite length_replicate, IH.
      replace c with ((c - n) + 1 * n) at 2 by lia.
      rewrite Nat.div_add by lia. by rewrite Nat.add_1_r.
Qed.

Lemma product_app l1 l2 : product (l1 ++ l2) = product l1 * product l2.
Proof. unfold product. induction l1 as [|n l1 IH]; simpl; [lia|]. rewrite IH. lia. Qed.

Lemma product_split (lens : list nat) d n :
  lens !! d = Some n →
  product lens = product (take d lens) * (product (drop (S d) lens) * n).
Proof.
  intros Hd. rewrite <- (take_drop_middle _ _ _ Hd) at 1.
  rewrite product_app. unfold product at 2. simpl. fold (product (drop (S d) lens)). lia.
Qed.

Lemma grid_index_bound (lens : list nat) d n c :
  lens !! d = Some n → c < product lens →
  0 < product (drop (S d) lens) ∧ (c `div` product (drop (S d) lens)) `mod` n < n.
Proof.
  intros Hd Hc. rewrite (product_split _ _ _ Hd) in Hc.
  assert (0 < product (drop (S d) lens) ∧ 0 < n) as [? ?] by nia.
  split; [done|]. by apply Nat.mod_upper_bound, Nat.neq_0_lt_0.
Qed.

(** Grid [d] of [meshgrid_nd]: its length, and its entry at column [c]. *)
Lemma meshgrid_nd_lookup (arrays : list (ndvalue F)) d axis :
  (ravel <$> arrays) !! d = Some axis →
  let lens := length <$> (ravel <$> arrays) in
  ∃ g, meshgrid_nd arrays !! d = Some g ∧ length g = product lens ∧
       ∀ c, c < product lens →
            g !! c = axis !! ((c `div` product (drop (S d) lens)) `mod` length axis).
Proof.
  intros Hd lens. unfold meshgrid_nd. fold lens.
  rewrite list_lookup_imap, Hd. simpl. eexists. split; [done|].
  assert (lens !! d = Some (length axis)) as Hl
    by (unfold lens; by rewrite list_lookup_fmap, Hd).
  pose proof (product_split _ _ _ Hl) as Hp.
  split.
  - rewrite length_tile, length_stretch. lia.
  - intros c Hc. destruct (grid_index_bound _ _ _ _ Hl Hc) as [Hpos Hb].
    rewrite lookup_tile by (rewrite length_stretch; lia).
    rewrite length_stretch, lookup_stretch by done. f_equal.
    rewrite Nat.Div0.mod_mul_r.
    rewrite (Nat.mul_comm (product (drop (S d) lens))), Nat.div_add by lia.
    rewrite Nat.div_small by (apply Nat.mod_upper_bound; lia). done.
Qed.

Lemma length_meshgrid_nd (arrays : list (ndvalue F)) :
  length (meshgrid_nd arrays) = length arrays.
Proof. unfold meshgrid_nd. by rewrite length_imap, length_fmap. Qed.

(** The entrywise product of grids of one length. *)
Lemma foldl_zip_mul_lookup (Ws : list (list F)) : ∀ (W0 : list F) (ws : list F) w0 c,
  W0 !! c = Some w0 →
  Forall2 (λ W w, W !! c = Some w) Ws ws →
  foldl (zip_with np_mul) W0 Ws !! c = Some (foldl np_mul w0 ws).
Proof.
  induction Ws as [|W Ws IH]; intros W0 ws w0 c H0 Hall.
  - by inversion Hall.
  - inversion Hall as [|? w ? ws' HW Hall']; subst. simpl. apply IH; [|done].
    rewrite lookup_zip_with, H0. simpl. by rewrite HW.
Qed.

Lemma foldl_zip_mul_length n (Ws : list (list F)) : ∀ (W0 : list F),
  length W0 = n → Forall (λ W, length W = n) Ws →
  length (foldl (zip_with np_mul) W0 Ws) = n.
Proof.
  induction Ws as [|W Ws IH]; intros W0 H0 Hall; [done|].
  inversion Hall; subst. simpl. apply IH; [|done]. rewrite length_zip_with. lia.
Qed.
End GridLemmas.

Section TensorTheorem.
Context {F : Type} `{Numeric F}.

Lemma ravel_one_row (l : list F) : ravel (Mat [l]) = l.
Proof. simpl. apply app_nil_r. Qed.

Lemma node_axes_lengths (rules : list (QuadratureRule F)) :
  Forall (λ r, ∃ ns ws, one_dimensional r ns ws) rules →
  length <$> (ravel <$> (get_nodes <$> rules)) = get_number_nodes <$> rules.
Proof.
  induction 1 as [|r rules (ns & ws & Hn & Hw & Hln & Hlw) _ IH]; [done|].
  rewrite !fmap_cons, IH, Hn, ravel_one_row. by f_equal.
Qed.

Lemma weight_axes_lengths (rules : list (QuadratureRule F)) :
  Forall (λ r, ∃ ns ws, one_dimensional r ns ws) rules →
  length <$> (ravel <$> (get_weights <$> rules)) = get_number_nodes <$> rules.
Proof.
  induction 1 as [|r rules (ns & ws & Hn & Hw & Hln & Hlw) _ IH]; [done|].
  rewrite !fmap_cons, IH, Hw, ravel_one_row. by f_equal.
Qed.

Lemma foldl_mul_product (l : list nat) : ∀ n, foldl Nat.mul n l = n * product l.
Proof.
  unfold product. induction l as [|m l IH]; intros n; simpl; [lia|]. rewrite IH. lia.
Qed.

Lemma reduce_mul_product (l : list nat) : l ≠ [] → reduce Nat.mul l = Ok (product l).
Proof.
  destruct l as [|n l]; [done|]. intros _. unfold reduce.
  by rewrite foldl_mul_product.
Qed.

Lemma unravel_index_lookup (lens : list nat) c d n :
  lens !! d = Some n →
  unravel_index lens c !! d = Some ((c `div` product (drop (S d) lens)) `mod` n).
Proof. intros Hd. unfold unravel_index. by rewrite list_lookup_imap, Hd. Qed.

(** Column [c] of the grids of [arrays] holds, for every axis, the entry
    of that axis selected by the multi-index of [c]. *)
Lemma meshgrid_nd_column (arrays : list (ndvalue F)) (lens : list nat) c d a :
  length <$> (ravel <$> arrays) = lens →
  arrays !! d = Some a → c < product lens →
  ∃ g i x, meshgrid_nd arrays !! d = Some g ∧ length g = product lens ∧
           unravel_index lens c !! d = Some i ∧ i < length (ravel a) ∧
           ravel a !! i = Some x ∧ g !! c = Some x.
Proof.
  intros Hlens Ha Hc.
  assert ((ravel <$> arrays) !! d = Some (ravel a)) as Hax
    by (by rewrite list_lookup_fmap, Ha).
  destruct (meshgrid_nd_lookup arrays d (ravel a) Hax) as (g & Hg & Hlg & Hgc).
  rewrite Hlens in Hlg, Hgc.
  assert (lens !! d = Some (length (ravel a))) as Hl
    by (by rewrite <- Hlens, list_lookup_fmap, Hax).
  destruct (grid_index_bound _ _ _ _ Hl Hc) as [_ Hb].
  destruct (lookup_lt_is_Some_2 _ _ Hb) as [x Hx].
  exists g, ((c `div` product (drop (S d) lens)) `mod` length (ravel a)), x.
  repeat split; try done.
  - by apply unravel_index_lookup.
  - by rewrite Hgc.
Qed.

(** C3: for a non-empty list of one-dimensional rules with [N_1, ..., N_D]
    nodes, the constructed tensor product has [N_1 * ... * N_D] nodes and
    as many weights; column [c] of its node array holds, in row [d], the
    node of constituent [d] selected by the multi-index of [c], and the
    weight at [c] is the product of the weights of the constituents at
    that multi-index. *)
Theorem tensor_product_nodes_weights
    (rules : list (QuadratureRule F)) (options : gmap string pyatom) :
  rules ≠ [] →
  Forall (λ r, ∃ ns ws, one_dimensional r ns ws) rules →
  let lens := get_number_nodes <$> rules in
  ∃ nodes weights,
    TensorProductQR.__init__ rules options
      = Ok (TensorProduct (length rules) rules options (product lens) nodes weights) ∧
    length nodes = length rules ∧
    Forall (λ row, length row = product lens) nodes ∧
    length weights = product lens ∧
    ∀ c, c < product lens →
      (∀ d r, rules !! d = Some r →
         ∃ i x, unravel_index lens c !! d = Some i ∧ i < get_number_nodes r ∧
                ravel (get_nodes r) !! i = Some x ∧
                nodes !! d ≫= (λ row, row !! c) = Some x) ∧
      ∃ wc, weights !! c = Some wc ∧
            reduce np_mul (selected_weights rules (unravel_index lens c)) = Ok wc.
Proof.
  intros Hne H1d lens.
  pose proof (node_axes_lengths rules H1d) as Hnl.
  pose proof (weight_axes_lengths rules H1d) as Hwl.
  fold lens in Hnl, Hwl.
  destruct (meshgrid_nd (get_weights <$> rules)) as [|G0 Gs] eqn:HG.
  { apply (f_equal length) in HG. rewrite length_meshgrid_nd, length_fmap in HG.
    by destruct rules. }
  assert (∀ d G, (G0 :: Gs) !! d = Some G → length G = product lens) as HGlen.
  { intros d G HGd. rewrite <- HG in HGd.
    pose proof (lookup_lt_Some _ _ _ HGd) as Hd.
    rewrite length_meshgrid_nd in Hd.
    destruct (lookup_lt_is_Some_2 _ _ Hd) as [a Ha].
    destruct (meshgrid_nd_lookup (get_weights <$> rules) d (ravel a)) as (g & Hg & Hlg & _).
    { by rewrite list_lookup_fmap, Ha. }
    rewrite Hwl in Hlg. congruence. }
  exists (meshgrid_nd (get_nodes <$> rules)), (foldl (zip_with np_mul) G0 Gs).
  split.
  { unfold TensorProductQR.__init__, TensorProductQR.tensor_product.
    rewrite HG. fold lens. rewrite reduce_mul_product by (unfold lens; by destruct rules).
    done. }
  split; [by rewrite length_meshgrid_nd, length_fmap|].
  split.
  { apply Forall_forall. intros row Hrow. apply list_elem_of_lookup in Hrow as [d Hd].
    pose proof (lookup_lt_Some _ _ _ Hd) as Hd'.
    rewrite length_meshgrid_nd in Hd'.
    destruct (lookup_lt_is_Some_2 _ _ Hd') as [a Ha].
    destruct (meshgrid_nd_lookup (get_nodes <$> rules) d (ravel a)) as (g & Hg & Hlg & _).
    { by rewrite list_lookup_fmap, Ha. }
    rewrite Hnl in Hlg. congruence. }
  split.
  { apply foldl_zip_mul_length.
    - by apply (HGlen 0).
    - apply Forall_forall. intros G HGin. apply list_elem_of_lookup in HGin as [d Hd].
      by apply (HGlen (S d)). }
  intros c Hc. split.
  - intros d r Hr.
    destruct (meshgrid_nd_column (get_nodes <$> rules) lens c d (get_nodes r))
      as (g & i & x & Hg & _ & Hi & Hil & Hx & Hgc); [done| |done|].
    { by rewrite list_lookup_fmap, Hr. }
    exists i, x. rewrite Hg. simpl. repeat split; try done.
    pose proof (f_equal (λ l, l !! d) Hnl) as Hl. simpl in Hl.
    unfold lens in Hl. rewrite !list_lookup_fmap, Hr in Hl. simpl in Hl.
    injection Hl as Hl. by rewrite <- Hl.
  - assert (Forall2 (λ G w, G !! c = Some w) (G0 :: Gs)
              (selected_weights rules (unravel_index lens c))) as Hsel.
    { apply Forall2_same_length_lookup_2.
      - rewrite <- HG, length_meshgrid_nd, length_fmap.
        unfold selected_weights, unravel_index.
        rewrite length_zip_with, length_imap. unfold lens. rewrite length_fmap. lia.
      - intros d G w HGd Hw. unfold selected_weights in Hw.
        apply lookup_zip_with_Some in Hw as (r & i & -> & Hr & Hi).
        destruct (meshgrid_nd_column (get_weights <$> rules) lens c d (get_weights r))
          as (g & i' & x & Hg & _ & Hi' & Hil & Hx & Hgc); [done| |done|].
        { by rewrite list_lookup_fmap, Hr. }
        rewrite HG in Hg. simplify_eq. by rewrite Hx. }
    inversion Hsel as [|? w0 ? ws HG0 Hrest Heq1 Heq2]; subst.
    exists (foldl np_mul w0 ws). split; [|done].
    by apply foldl_zip_mul_lookup.
Qed.
End TensorTheorem.

Section RuleTheorems.
Context {F : Type} `{Numeric F}.

Lemma run_bind {A B} rf (b : build F A) (f : A → build F B) :
  run rf (build_bind b f) = result_bind (run rf b) (λ a, run rf (f a)).
Proof.
  induction b as [a|e|c k IH]; simpl; try done.
  destruct (rf c) as [[nodes weights]|e]; [|done]. apply IH.
Qed.

Lemma description_round_trip_eq rf :
  ∀ r, constructed rf r → run rf (from_description (get_description r)) = Ok r.
Proof.
  fix IH 1. intros [order opts n nodes ws|order a opts n nodes ws|dim qrs opts n nodes ws].
  - simpl. done.
  - simpl. done.
  - intros [Hall Hinit]. simpl. rewrite run_bind.
    assert (run rf
      ((fix all (ds : list (description F)) : build F (list (QuadratureRule F)) :=
          match ds with
          | [] => Built []
          | d' :: ds' =>
              build_bind (from_description d')
                (λ r, build_bind (all ds') (λ rs, Built (r :: rs)))
          end) (get_description <$> qrs)) = Ok qrs) as ->.
    { clear Hinit. induction qrs as [|r qrs IHq]; [done|].
      destruct Hall as [Hr Hall]. rewrite fmap_cons, run_bind, (IH r Hr). simpl.
      rewrite run_bind, (IHq Hall). done. }
    simpl. rewrite Hinit. done.
Qed.

(** C9: a rule that the constructors produced with the root finder [rf]
    is reproduced from its description: building a rule from
    [get_description] with the same root finder returns a rule with the
    same node array and the same weight array. *)
Theorem description_round_trip rf (r : QuadratureRule F) :
  constructed rf r →
  ∃ r', run rf (from_description (get_description r)) = Ok r' ∧
        get_nodes r' = get_nodes r ∧ get_weights r' = get_weights r.
Proof. intros Hc. exists r. by rewrite description_round_trip_eq. Qed.

(** C6, as the code has it: with order below one both constructors raise
    [ValueError] before the root finder is called.  With order one or
    above, and any shape parameter [a], they call the root finder with
    the order (and [a]) and build a rule from whatever nodes and weights
    it returns. *)
Theorem order_guard (order : Z) (a : F) (options : gmap string pyatom) :
  ((order < 1)%Z →
     GaussHermiteQR.__init__ order options = Failed ValueError ∧
     GaussLaguerreQR.__init__ order a options = Failed ValueError) ∧
  ((1 ≤ order)%Z →
     (∃ k, GaussHermiteQR.__init__ order options = Roots (h_roots order) k ∧
           ∀ nodes weights, ∃ r, k nodes weights = Built r) ∧
     (∃ k, GaussLaguerreQR.__init__ order a options = Roots (la_roots order a) k ∧
           ∀ nodes weights, ∃ r, k nodes weights = Built r)).
Proof.
  split; intros Ho.
  - unfold GaussHermiteQR.__init__, GaussLaguerreQR.__init__.
    by rewrite bool_decide_eq_false_2 by lia.
  - unfold GaussHermiteQR.__init__, GaussLaguerreQR.__init__.
    rewrite bool_decide_eq_true_2 by lia. simpl. split; eexists; (split; [done|]); eauto.
Qed.

End RuleTheorems.

Section HermiteRecursion.
Context {F : Type} `{Numeric F}.

Lemma hermite_function_SS k x :
  hermite_function (S (S k)) x
  = hermite_next (S (S k)) x (hermite_function (S k) x) (hermite_function k x).
Proof. done. Qed.

Lemma row_insert_eq (H0 : list (list F)) k r : k < length H0 → row (<[k := r]> H0) k = r.
Proof. intros Hk. unfold row. by rewrite list_lookup_insert_eq. Qed.

Lemma row_insert_ne (H0 : list (list F)) k j r : k ≠ j → row (<[k := r]> H0) j = row H0 j.
Proof. intros Hk. unfold row. by rewrite list_lookup_insert_ne. Qed.

Lemma hermite_row1_spec (nodes : list F) :
  hermite_row1 nodes (hermite_row0 nodes) = hermite_function 1 <$> nodes.
Proof.
  unfold hermite_row1, hermite_row0. induction nodes as [|x nodes IH]; [done|].
  rewrite !fmap_cons. simpl zip_with. by f_equal.
Qed.

Lemma hermite_rowk_spec k (nodes : list F) :
  hermite_rowk (S (S k)) nodes (hermite_function (S k) <$> nodes) (hermite_function k <$> nodes)
  = hermite_function (S (S k)) <$> nodes.
Proof.
  unfold hermite_rowk. induction nodes as [|x nodes IH]; [done|].
  rewrite !fmap_cons. simpl zip_with. by f_equal.
Qed.

(** The loop [for k in xrange(2, 2 + m)] fills rows [2 .. 2 + m - 1]. *)
Lemma hermite_loop_rows (nodes : list F) (m : nat) : ∀ (H0 : list (list F)),
  2 + m ≤ length H0 →
  row H0 0 = hermite_function 0 <$> nodes →
  row H0 1 = hermite_function 1 <$> nodes →
  let H' := foldl (hermite_step nodes) H0 (seq 2 m) in
  length H' = length H0 ∧
  ∀ j, j < 2 + m → row H' j = hermite_function j <$> nodes.
Proof.
  induction m as [|m IH]; intros H0 Hlen Hr0 Hr1.
  - simpl. split; [done|]. intros [|[|j]] Hj; [done|done|lia].
  - destruct (IH H0) as [Hl Hrows]; [lia|done|done|].
    rewrite seq_S, foldl_app. simpl.
    set (H' := foldl (hermite_step nodes) H0 (seq 2 m)) in *.
    unfold hermite_step. split; [by rewrite length_insert|].
    intros j Hj. destruct (decide (j = S (S m))) as [->|Hne].
    + rewrite row_insert_eq by lia. simpl. rewrite Nat.sub_0_r.
      rewrite (Hrows (S m)), (Hrows m) by lia. apply hermite_rowk_spec.
    + rewrite row_insert_ne by done. apply Hrows. lia.
Qed.

(** For order two and above the rows of both [_hermite_recursion]s are
    the Hermite functions of the recursion. *)
Lemma laguerre_hermite_rows (order : Z) (nodes : list F) (k : nat) :
  (2 ≤ order)%Z → (Z.of_nat k < 2 * order)%Z →
  row (GaussLaguerreQR._hermite_recursion order nodes) k = hermite_function k <$> nodes.
Proof.
  intros Ho Hk. unfold GaussLaguerreQR._hermite_recursion.
  rewrite bool_decide_eq_true_2 by lia.
  set (n := Z.to_nat (2 * order)).
  assert (4 ≤ n) as Hn4 by (unfold n; lia).
  set (Hm := <[0 := hermite_row0 nodes]> (replicate n (zeros (length nodes)))).
  assert (length Hm = n) as HlHm by (unfold Hm; by rewrite length_insert, length_replicate).
  assert (row Hm 0 = hermite_function 0 <$> nodes) as Hr0.
  { unfold Hm. rewrite row_insert_eq by (rewrite length_replicate; lia). done. }
  destruct (hermite_loop_rows nodes (n - 2) (<[1 := hermite_row1 nodes (row Hm 0)]> Hm))
    as [_ Hrows].
  - rewrite length_insert. lia.
  - by rewrite row_insert_ne.
  - rewrite row_insert_eq by lia. rewrite Hr0. apply hermite_row1_spec.
  - apply Hrows. unfold n. lia.
Qed.

Lemma gauss_hermite_rows (order : Z) (nodes : list F) (k : nat) :
  (Z.of_nat k < order)%Z →
  row (GaussHermiteQR._hermite_recursion order nodes) k = hermite_function k <$> nodes.
Proof.
  intros Hk. unfold GaussHermiteQR._hermite_recursion.
  set (n := Z.to_nat order).
  assert (k < n) as Hkn by (unfold n; lia).
  set (Hm := <[0 := hermite_row0 nodes]> (replicate n (zeros (length nodes)))).
  assert (length Hm = n) as HlHm by (unfold Hm; by rewrite length_insert, length_replicate).
  assert (row Hm 0 = hermite_function 0 <$> nodes) as Hr0.
  { unfold Hm. rewrite row_insert_eq by (rewrite length_replicate; lia). done. }
  case_bool_decide as Ho.
  - destruct (hermite_loop_rows nodes (n - 2) (<[1 := hermite_row1 nodes (row Hm 0)]> Hm))
      as [_ Hrows].
    + rewrite length_insert. unfold n in *. lia.
    + by rewrite row_insert_ne.
    + rewrite row_insert_eq by (unfold n in *; lia). rewrite Hr0. apply hermite_row1_spec.
    + apply Hrows. unfold n in *. lia.
  - assert (k = 0) as -> by (unfold n in *; lia). done.
Qed.

(** At order one the recursion of [GaussLaguerreQR] leaves its second
    row as allocated. *)
Lemma laguerre_order_one_rows (nodes : list F) :
  GaussLaguerreQR._hermite_recursion 1 nodes = [hermite_row0 nodes; zeros (length nodes)].
Proof. done. Qed.

Lemma laguerre_weights_from_order_two (order : Z) (nodes : list F) :
  (2 ≤ order)%Z →
  GaussLaguerreQR.transform_weights order nodes
    (GaussLaguerreQR._hermite_recursion order (np_real <$> (np_sqrt <$> nodes)))
  = laguerre_weight order <$> nodes.
Proof.
  intros Ho. unfold GaussLaguerreQR.transform_weights.
  rewrite !laguerre_hermite_rows by lia.
  unfold laguerre_weight. induction nodes as [|x nodes IH]; [done|].
  rewrite !fmap_cons. simpl zip_with. by f_equal.
Qed.
End HermiteRecursion.

(** ** The ground state *)

Section GroundState.
Context {F : Type} `{Numeric F}.

(** In one dimension the entrywise product and the matrix product of
    [P] and [inv(Q)] are the same, and [_evaluate_phi0] is the ground
    state of the specification at every node. *)
Lemma evaluate_phi0_one_dimension (w : Wavepacket F) (q0 p0 Q00 P00 S0 Qinv : F)
    (xs : list F) (prefactor : bool) :
  la_inv [[Q00]] = [[Qinv]] →
  let Pi := {| Pi_q := [q0]; Pi_p := [p0]; Pi_Q := [[Q00]]; Pi_P := [[P00]];
               Pi_S := S0 |} in
  _evaluate_phi0 w Pi [xs] prefactor
  = (λ x, phi0_spec (_dimension w) (_eps w) Pi [x] prefactor) <$> xs.
Proof.
  intros Hinv Pi. unfold _evaluate_phi0, phi0_spec.
  cbn [Pi_q Pi_p Pi_Q Pi_P Pi]. rewrite Hinv.
  destruct prefactor; (induction xs as [|x xs IH]; [done|]);
    cbn in *; by rewrite IH.
Qed.
End GroundState.

(** ** The properties at concrete inputs *)

Lemma shape_of_list_lookup (l : list (list nat)) k j :
  NoDup l → bs_lima (shape_of_list l) !! k = Some j ↔ l !! j = Some k.
Proof.
  intros Hnd. unfold shape_of_list. simpl.
  rewrite <- elem_of_list_to_map by (rewrite fst_zip; [done|by rewrite length_seq]).
  rewrite list_elem_of_lookup. split.
  - intros [i Hi]. apply lookup_zip_with_Some in Hi as (k' & j' & [= <- <-] & Hk & Hj).
    apply lookup_seq in Hj as [-> _]. done.
  - intros Hj. exists j. apply lookup_zip_with_Some. exists k, j.
    split; [done|]. split; [done|]. apply lookup_seq. split; [done|].
    by eapply lookup_lt_Some.
Qed.

Lemma wf_shape_of_list (l : list (list nat)) : NoDup l → wf_shape (shape_of_list l).
Proof.
  intros Hnd. split.
  - done.
  - intros k. simpl. rewrite list_elem_of_lookup. split.
    + intros [j Hj]. exists j. by apply shape_of_list_lookup.
    + intros [j Hj]. exists j. by apply shape_of_list_lookup.
  - done.
  - intros k j Hj. apply shape_of_list_lookup in Hj; [|done]. simpl.
    by eapply lookup_lt_Some.
  - intros k k' j Hk Hk'. apply shape_of_list_lookup in Hk, Hk'; try done. congruence.
Qed.

Lemma wf_shape_A : wf_shape shape_A.
Proof. apply wf_shape_of_list. compute_done. Qed.

Lemma wf_shape_B : wf_shape shape_B.
Proof. apply wf_shape_of_list. compute_done. Qed.

Lemma wf_shape_C : wf_shape shape_C.
Proof. apply wf_shape_of_list. compute_done. Qed.

Lemma overlapping_A_B : overlapping shape_A shape_B.
Proof.
  exists [0; 0]. split; exists 0; apply shape_of_list_lookup; (done || compute_done).
Qed.

Lemma disjoint_A_C : ¬ overlapping shape_A shape_C.
Proof.
  intros (k & [a Ha] & [c Hc]).
  apply shape_of_list_lookup in Ha; [|compute_done].
  apply shape_of_list_lookup in Hc; [|compute_done].
  destruct c as [|c]; [|done]. injection Hc as <-.
  by destruct a as [|[|[|a]]].
Qed.

Lemma set_basis_shape_disjoint_raises_witness :
  ∃ w',
    set_basis_shape (Some (Z.of_nat 0)) shape_C world1 = (Raise IndexError, w') ∧
    self w' = self world1 ∧
    ∀ a d, read (mem world1) a = Some d → read (mem w') a = Some d.
Proof.
  apply (set_basis_shape_disjoint_raises world1 0 shape_A shape_C (NdArray 0 0 3)
           [c1; ci; (2, 0)%R]).
  - simpl. lia.
  - reflexivity.
  - reflexivity.
  - reflexivity.
  - apply wf_shape_A.
  - apply wf_shape_C.
  - apply disjoint_A_C.
Defined.

(** The run of [set_basis_shape] on [world1] with [shape_C], in full:
    the zeros were allocated, and nothing else happened. *)
Example resize_disjoint_example :
  set_basis_shape (Some 0%Z) shape_C world1
  = (Raise IndexError, World packet1 (mem world1 ++ [[lit 0]])).
Proof. reflexivity. Qed.

Lemma basis_shape_there_and_back_disjoint_witness :
  ∃ w',
    (set_basis_shape (Some (Z.of_nat 0)) shape_C;;
     set_basis_shape (Some (Z.of_nat 0)) shape_A) world1 = (Raise IndexError, w') ∧
    _basis_shapes (self w') !! 0%nat = Some shape_A ∧
    _coefficients (self w') !! 0%nat = Some (NdArray 0 0 3) ∧
    read (mem w') (NdArray 0 0 3) = Some [c1; ci; (2, 0)%R].
Proof.
  apply (basis_shape_there_and_back_disjoint world1 0 shape_A shape_C (NdArray 0 0 3)
           [c1; ci; (2, 0)%R]).
  - simpl. lia.
  - reflexivity.
  - reflexivity.
  - reflexivity.
  - apply wf_shape_A.
  - apply wf_shape_C.
  - apply disjoint_A_C.
Defined.

Lemma set_basis_shape_remaps_coefficients_witness :
  ∃ w' cnew new,
    set_basis_shape (Some 0%Z) shape_B world1 = (Ok tt, w') ∧
    _basis_shapes (self w') !! 0%nat = Some shape_B ∧
    _coefficients (self w') !! 0%nat = Some cnew ∧
    nd_base cnew = length (mem world1) ∧ mem w' = mem world1 ++ [new] ∧
    read (mem w') cnew = Some new ∧
    length new = bs_basissize shape_B ∧
    (∀ k jA jB, bs_lima shape_A !! k = Some jA → bs_lima shape_B !! k = Some jB →
                new !! jB = [c1; ci; (2, 0)%R] !! jA) ∧
    (∀ j, j < bs_basissize shape_B →
          (¬ ∃ k, is_Some (bs_lima shape_A !! k) ∧ bs_lima shape_B !! k = Some j) →
          new !! j = Some (lit 0)).
Proof.
  apply (set_basis_shape_remaps_coefficients world1 0 shape_A shape_B (NdArray 0 0 3)
           [c1; ci; (2, 0)%R]).
  - simpl. lia.
  - reflexivity.
  - reflexivity.
  - reflexivity.
  - reflexivity.
  - apply wf_shape_A.
  - apply wf_shape_B.
  - apply overlapping_A_B.
Defined.

(** The run of [set_basis_shape] on [world1], in full. *)
Example resize_example :
  fst (set_basis_shape (Some 0%Z) shape_B world1) = Ok tt ∧
  mem (snd (set_basis_shape (Some 0%Z) shape_B world1)) = mem world1 ++ [[c1; (2,0)%R; lit 0]].
Proof. split; reflexivity. Qed.

Lemma basis_shape_there_and_back_witness :
  ∃ w1 w2 c2 final,
    set_basis_shape (Some 0%Z) shape_B world1 = (Ok tt, w1) ∧
    set_basis_shape (Some 0%Z) shape_A w1 = (Ok tt, w2) ∧
    _basis_shapes (self w2) !! 0%nat = Some shape_A ∧
    _coefficients (self w2) !! 0%nat = Some c2 ∧
    read (mem w2) c2 = Some final ∧
    length final = bs_basissize shape_A ∧
    ∀ k jA, bs_lima shape_A !! k = Some jA →
      final !! jA = if bs_contains shape_B k then [c1; ci; (2, 0)%R] !! jA
                    else Some (lit 0).
Proof.
  apply (basis_shape_there_and_back world1 0 shape_A shape_B (NdArray 0 0 3)
           [c1; ci; (2, 0)%R]).
  - simpl. lia.
  - reflexivity.
  - reflexivity.
  - reflexivity.
  - reflexivity.
  - apply wf_shape_A.
  - apply wf_shape_B.
  - apply overlapping_A_B.
Defined.


(** C7, as stated, fails: [values2] has the right length and its second
    array has the wrong size; the call raises and component 0 has been
    replaced. *)
Lemma set_coefficients_partial_update :
  ∃ w', set_coefficients None values2 world2 = (Raise ValueError, w') ∧
        _coefficients (self w') = [NdArray 3 0 3; NdArray 0 3 3] ∧
        _coefficients (self w') ≠ _coefficients (self world2).
Proof. eexists. split; [reflexivity|]. split; [reflexivity|]. simpl. congruence. Qed.

Lemma whole_store_failures_witness :
  set_basis_shape None [shape_A] world2 = (Raise ValueError, world2) ∧
  set_coefficients None [NdArray 1 0 3] world2 = (Raise ValueError, world2) ∧
  ∃ w', set_coefficients None values2 world2 = (Raise ValueError, w') ∧
    frame world2 w' ∧
    (∀ t, 1 ≤ t →
       _coefficients (self w') !! t = _coefficients (self world2) !! t) ∧
    (∀ t v d, [NdArray 1 0 3] !! t = Some v → read (mem world2) v = Some d →
       ∃ c, _coefficients (self w') !! t = Some c ∧
            read (mem w') c = Some d ∧ length (mem world2) ≤ nd_base c).
Proof.
  destruct (whole_store_failures world2) as (Hshapes & Hcount & Hsize).
  split; [apply Hshapes; simpl; lia|].
  split; [apply Hcount; simpl; lia|].
  apply (Hsize [NdArray 1 0 3] (NdArray 2 0 2) [] 3%nat [c1; c1]).
  - reflexivity.
  - simpl. lia.
  - intros [|t] v Hv; [|done]. injection Hv as <-. split; [reflexivity|].
    eexists. reflexivity.
  - reflexivity.
  - reflexivity.
  - simpl. lia.
Defined.

Lemma set_coefficients_single_component_raises_witness :
  set_coefficients (Some 0%Z) (NdArray 1 0 3) world1 = (Raise UnboundLocalError, world1).
Proof.
  apply (set_coefficients_single_component_raises world1 0 (NdArray 1 0 3) 3).
  - simpl. lia.
  - reflexivity.
Defined.

Lemma tensor_product_nodes_weights_witness :
  ∃ nodes weights,
    TensorProductQR.__init__ [rule_gh2; rule_gl1] ∅
      = Ok (TensorProduct 2 [rule_gh2; rule_gl1] ∅ 2 nodes weights) ∧
    length nodes = 2%nat ∧
    Forall (λ row, length row = 2%nat) nodes ∧
    length weights = 2%nat ∧
    ∀ c, c < 2 →
      (∀ d r, [rule_gh2; rule_gl1] !! d = Some r →
         ∃ i x, unravel_index [2; 1]%nat c !! d = Some i ∧ i < get_number_nodes r ∧
                ravel (get_nodes r) !! i = Some x ∧
                nodes !! d ≫= (λ row, row !! c) = Some x) ∧
      ∃ wc, weights !! c = Some wc ∧
            reduce np_mul (selected_weights [rule_gh2; rule_gl1]
                             (unravel_index [2; 1]%nat c)) = Ok wc.
Proof.
  apply (tensor_product_nodes_weights [rule_gh2; rule_gl1] ∅).
  - done.
  - repeat constructor.
    + eexists _, _. repeat split; reflexivity.
    + eexists _, _. repeat split; reflexivity.
Defined.

Lemma description_round_trip_witness :
  ∃ r', run table_roots (from_description (get_description rule_tp)) = Ok r' ∧
        get_nodes r' = get_nodes rule_tp ∧ get_weights r' = get_weights rule_tp.
Proof.
  apply (description_round_trip table_roots rule_tp).
  repeat split; reflexivity.
Defined.

Lemma order_guard_witness :
  (GaussHermiteQR.__init__ 0 ∅ = Failed ValueError ∧
   GaussLaguerreQR.__init__ 0 c0 ∅ = Failed ValueError) ∧
  (∃ k, GaussHermiteQR.__init__ 1 ∅ = Roots (h_roots 1) k ∧
        ∀ nodes weights : list C, ∃ r, k nodes weights = Built r) ∧
  (∃ k, GaussLaguerreQR.__init__ 1 (lit (- 2 # 1)) ∅
        = Roots (la_roots 1 (lit (- 2 # 1))) k ∧
        ∀ nodes weights : list C, ∃ r, k nodes weights = Built r).
Proof.
  split.
  - apply (order_guard 0 c0 ∅). lia.
  - apply (order_guard 1 (lit (- 2 # 1)) ∅). lia.
Defined.

(** C6, as stated, fails at the shape parameter [a = -1]: the
    constructor has no check of [a], and the root finder of SciPy refuses
    only [alpha < -1], so [GaussLaguerreQR(1, -1)] raises nothing and a
    rule is built, whatever weight the root finder returns.  At [a = -2]
    the root finder raises [ValueError], and with it the constructor. *)
Lemma laguerre_shape_parameter_minus_one :
  (fst (lit (- 1 # 1) : C) <= -1)%R ∧
  (∀ mu0, ∃ r, run (scipy_la_roots mu0) (GaussLaguerreQR.__init__ 1 (lit (- 1 # 1)) ∅)
               = Ok r) ∧
  (∀ mu0, run (scipy_la_roots mu0) (GaussLaguerreQR.__init__ 1 (lit (- 2 # 1)) ∅)
          = Raise ValueError).
Proof.
  assert (Q2R (- 1 # 1) = -1)%R as E1 by (unfold Q2R; simpl; lra).
  assert (Q2R (- 2 # 1) = -2)%R as E2 by (unfold Q2R; simpl; lra).
  split; [simpl; lra|]. split; intros mu0.
  - unfold GaussLaguerreQR.__init__. simpl.
    destruct (Rlt_dec (Q2R (- 1 # 1)) (-1)) as [Hlt|_]; [lra|]. by eexists.
  - unfold GaussLaguerreQR.__init__. simpl.
    destruct (Rlt_dec (Q2R (- 2 # 1)) (-1)) as [_|Hge]; [done|lra].
Qed.

Section ComplexNumbers.
Local Open Scope R_scope.

Lemma cexp_nonzero z : cexp z ≠ (0, 0).
Proof.
  unfold cexp. intros [= Hc Hs].
  pose proof (exp_pos (fst z)). pose proof (sin2_cos2 (snd z)) as Hsc.
  unfold Rsqr in Hsc.
  assert (cos (snd z) = 0) by nra. assert (sin (snd z) = 0) by nra. nra.
Qed.

Lemma is_zero_false z : z ≠ (0, 0) → is_zero z = false.
Proof.
  destruct z as [x y]. unfold is_zero. simpl.
  destruct (Req_EM_T x 0) as [->|]; [|done].
  destruct (Req_EM_T y 0) as [->|]; [|done]. congruence.
Qed.

Lemma cpow_nonzero z w : z ≠ (0, 0) → cpow z w ≠ (0, 0).
Proof. intros Hz. unfold cpow. rewrite is_zero_false by done. apply cexp_nonzero. Qed.

Lemma clog_one : clog (1, 0) = (0, 0).
Proof.
  unfold clog, cabs, carg. simpl.
  replace (1 * 1 + 0 * 0) with 1 by lra. rewrite sqrt_1, ln_1.
  destruct (Rlt_dec 0 1) as [_|Hn]; [|lra].
  replace (0 / 1) with 0 by lra. by rewrite atan_0.
Qed.

Lemma cexp_zero : cexp (0, 0) = (1, 0).
Proof. unfold cexp. simpl. rewrite exp_0, cos_0, sin_0. f_equal; lra. Qed.

Lemma cpow_one w : cpow (1, 0) w = (1, 0).
Proof.
  unfold cpow. rewrite is_zero_false by (intros [=]; lra).
  rewrite clog_one. unfold cmul. simpl.
  replace (fst w * 0 - snd w * 0) with 0 by lra.
  replace (fst w * 0 + snd w * 0) with 0 by lra. apply cexp_zero.
Qed.

Lemma cinv_Q0 : cinv Q0 = [[(1, 0); (-1, 0)]; [(0, 0); (1, 0)]].
Proof.
  unfold cinv, cdet, minor, Q0, c0, c1. simpl.
  unfold cdiv, cmul, cadd, cneg. simpl.
  repeat (f_equal; try (field; lra); try lra).
Qed.

Lemma phi0_code_value :
  _evaluate_phi0 packet1 Pi0 nodes0 false = [cmul norm0 (cexp (- / 2, 0))].
Proof.
  unfold _evaluate_phi0. cbn [Pi_q Pi_p Pi_Q Pi_P _eps _dimension packet1 Pi0].
  cbn [la_inv numeric]. rewrite cinv_Q0.
  unfold nodes0, P0, c0, c1, ci. simpl.
  rewrite !cpow_one. unfold norm0, of_Z. cbn [lit numeric]. do 3 f_equal.
  unfold cadd, cmul, cdiv, csub, cneg, Q2R. simpl. f_equal; field.
Qed.

Lemma phi0_spec_value :
  phi0_spec 2 c1 Pi0 (column nodes0 0) false = cmul norm0 (cexp (- 1, 0)).
Proof.
  unfold phi0_spec. cbn [Pi_q Pi_p Pi_Q Pi_P Pi0].
  cbn [la_inv numeric]. rewrite cinv_Q0.
  unfold nodes0, P0, c0, c1, ci, column, inner. simpl.
  rewrite !cpow_one. unfold norm0, of_Z. cbn [lit numeric]. do 2 f_equal.
  unfold cadd, cmul, cdiv, csub, cneg, Q2R. simpl. f_equal; field.
Qed.

Lemma norm0_nonzero : norm0 ≠ (0, 0).
Proof.
  unfold norm0. apply cpow_nonzero. unfold cmul. simpl. intros [= Hp _].
  pose proof PI_RGT_0. lra.
Qed.

(** C1 at a parameter set with a non-diagonal [Q]: the value computed by
    [_evaluate_phi0], with the entrywise product [P*inv(Q)], is
    [norm0 * exp(-1/2)]; the ground state of the specification, with the
    matrix product, is [norm0 * exp(-1)]. *)
Theorem ground_state_entrywise_product :
  _evaluate_phi0 packet1 Pi0 nodes0 false
    ≠ [phi0_spec (_dimension packet1) (_eps packet1) Pi0 (column nodes0 0) false].
Proof.
  rewrite phi0_code_value. cbn [_dimension _eps packet1]. rewrite phi0_spec_value.
  intros [= Hre Him]. apply norm0_nonzero.
  unfold cexp in *. simpl in *. rewrite cos_0, sin_0 in *.
  destruct norm0 as [a b]. simpl in *.
  assert (exp (- / 2) ≠ exp (- 1)) as Hne.
  { intros He. apply exp_inv in He. lra. }
  assert (a * (exp (- / 2) - exp (- 1)) = 0) as Ha by lra.
  assert (b * (exp (- / 2) - exp (- 1)) = 0) as Hb by lra.
  apply Rmult_integral in Ha as [->|?]; [|lra].
  apply Rmult_integral in Hb as [->|?]; [|lra]. done.
Qed.

End ComplexNumbers.

Section LaguerreOrderOne.
Local Open Scope R_scope.

Lemma singleton_eq {A} (a b : A) : [a] = [b] → a = b.
Proof. by intros [= ->]. Qed.

Lemma cmul_nonzero z w : z ≠ (0, 0) → w ≠ (0, 0) → cmul z w ≠ (0, 0).
Proof.
  destruct z as [a b], w as [c d]. unfold cmul. simpl. intros Hz Hw [= Hre Him].
  assert ((a * a + b * b) * (c * c + d * d) = 0) as Hn by nra.
  apply Rmult_integral in Hn as [Hn|Hn].
  - apply Hz. assert (a = 0) by nra. assert (b = 0) by nra. by subst.
  - apply Hw. assert (c = 0) by nra. assert (d = 0) by nra. by subst.
Qed.

Lemma csqrt_nonzero z : z ≠ (0, 0) → csqrt z ≠ (0, 0).
Proof. intros Hz. unfold csqrt. rewrite is_zero_false by done. apply cexp_nonzero. Qed.

Lemma csqrt_one : csqrt (1, 0) = (1, 0).
Proof.
  unfold csqrt. rewrite is_zero_false by (intros [=]; lra).
  rewrite clog_one. unfold cmul. simpl.
  replace (/ 2 * 0 - 0 * 0) with 0 by lra.
  replace (/ 2 * 0 + 0 * 0) with 0 by lra. apply cexp_zero.
Qed.

(** C4 at order one: the node of the rule is [1], the root of [L_1].  The
    row [H[2R-1] = H[1]] that the weight formula divides by is left at
    zero by [_hermite_recursion], while the recursion gives it the
    non-zero value [sqrt(2) x H[0]]. *)
Theorem laguerre_order_one_second_row :
  let x := np_real <$> (np_sqrt <$> [c1]) in
  row (GaussLaguerreQR._hermite_recursion 1 x) 1 = [lit 0]
  ∧ hermite_function 1 <$> x ≠ [lit 0].
Proof.
  split; [reflexivity|].
  cbn [fmap list_fmap np_sqrt np_real numeric]. unfold c1. rewrite csqrt_one.
  unfold creal. cbn [fst].
  assert (hermite_function 1 ((1, 0) : C) ≠ (0, 0)) as Hne.
  { unfold hermite_function. cbn [hermite_pair fst snd np_mul np_sqrt np_pow np_exp
      np_pi lit numeric].
    apply cmul_nonzero; [apply cmul_nonzero|apply cmul_nonzero].
    - apply csqrt_nonzero. unfold Q2R. simpl. intros [= Hq]. lra.
    - intros [=]. lra.
    - apply cpow_nonzero. intros [= Hp]. pose proof PI_RGT_0. lra.
    - apply cexp_nonzero. }
  intros Heq. apply Hne. apply singleton_eq in Heq. rewrite Heq.
  cbn [lit numeric]. unfold Q2R. simpl. f_equal. lra.
Qed.
End LaguerreOrderOne.

(** * Further properties *)

(** ** Single coefficients, copies and the storage invariant *)

Section SingleCoefficient.
Context {F : Type} `{Numeric F}.

(** What a view reads after one entry of a buffer was overwritten. *)
Lemma read_after_insert (h : list (list F)) (b : ndarray) (d buf : list F) base pos v :
  h !! base = Some buf →
  read h b = Some d →
  read (<[base := <[pos := v]> buf]> h) b
  = Some (if bool_decide (nd_base b = base ∧ nd_offset b ≤ pos < nd_offset b + nd_size b)
          then <[pos - nd_offset b := v]> d else d).
Proof.
  intros Hbuf. unfold read.
  destruct (decide (nd_base b = base)) as [Hb|Hb].
  - rewrite Hb, Hbuf, list_lookup_insert_eq by (by eapply lookup_lt_Some). simpl.
    rewrite length_insert. case_bool_decide as Hlen; [|done]. intros [= <-]. f_equal.
    case_bool_decide as Hin.
    + rewrite drop_insert_ge by lia. rewrite take_insert_lt by lia. done.
    + destruct (decide (pos < nd_offset b)) as [Hlt|Hge].
      * by rewrite drop_insert_lt by lia.
      * rewrite drop_insert_ge by lia. rewrite take_insert_ge by lia. done.
  - rewrite list_lookup_insert_ne by done. intros ->.
    rewrite bool_decide_eq_false_2 by tauto. done.
Qed.

Lemma store_ok_component (w : world F) (i : nat) bs :
  store_ok w → _basis_shapes (self w) !! i = Some bs →
  wf_shape bs ∧ _basis_sizes (self w) !! i = Some (bs_basissize bs) ∧
  ∃ c d, _coefficients (self w) !! i = Some c ∧ nd_size c = bs_basissize bs ∧
         read (mem w) c = Some d ∧ length d = bs_basissize bs.
Proof.
  intros [Hn Hwf Hs Hc] Hbs. split; [by eapply Forall_lookup_1|].
  assert (_basis_sizes (self w) !! i = Some (bs_basissize bs)) as Hsi.
  { rewrite Hs, list_lookup_fmap, Hbs. done. }
  split; [done|].
  destruct (Forall2_lookup_r _ _ _ _ _ Hc Hsi) as (c & Hci & Hsz & [d Hd]).
  exists c, d. repeat split; try done. rewrite <- Hsz. by eapply read_length.
Qed.

Lemma set_coefficient_run (w : world F) (c : Z) bs k key a buf v :
  (0 ≤ c < _number_components (self w))%Z →
  _basis_shapes (self w) !! Z.to_nat c = Some bs →
  bs_lima bs !! k = Some key →
  _coefficients (self w) !! Z.to_nat c = Some a →
  mem w !! nd_base a = Some buf →
  key < nd_size a →
  set_coefficient c k v w
  = (Ok tt, World (self w) (<[nd_base a := <[nd_offset a + key := v]> buf]> (mem w))).
Proof.
  intros Hc Hbs Hk Ha Hbuf Hkey. unfold set_coefficient, mbind, M_bind, gets. simpl.
  rewrite !bool_decide_eq_false_2 by lia. simpl.
  unfold get_basis_shapes_item, get_coefficients_item, mbind, M_bind, gets, lift,
    list_getitem. simpl. rewrite Hbs.
  unfold bs_contains, bs_getitem. rewrite Hk.
  rewrite bool_decide_eq_true_2 by eauto. simpl. rewrite Ha.
  unfold store_item. rewrite Hbuf. by rewrite bool_decide_eq_true_2 by done.
Qed.

Lemma get_coefficient_run (w : world F) (c : Z) bs k key a :
  (0 ≤ c < _number_components (self w))%Z →
  _basis_shapes (self w) !! Z.to_nat c = Some bs →
  bs_lima bs !! k = Some key →
  _coefficients (self w) !! Z.to_nat c = Some a →
  key < nd_size a →
  get_coefficient c k w = (Ok (NdArray (nd_base a) (nd_offset a + key) 1), w).
Proof.
  intros Hc Hbs Hk Ha Hkey. unfold get_coefficient, mbind, M_bind, gets. simpl.
  rewrite !bool_decide_eq_false_2 by lia. simpl.
  unfold get_basis_shapes_item, get_coefficients_item, mbind, M_bind, gets, lift,
    list_getitem. simpl. rewrite Hbs.
  unfold bs_contains, bs_getitem. rewrite Hk.
  rewrite bool_decide_eq_true_2 by eauto. simpl. rewrite Ha.
  unfold item_view. by rewrite bool_decide_eq_true_2 by done.
Qed.

Lemma read_is_Some_buffer (h : list (list F)) a d :
  read h a = Some d → ∃ buf, h !! nd_base a = Some buf.
Proof. unfold read. destruct (h !! nd_base a); [eauto|done]. Qed.

Lemma store_ok_index (w : world F) (c : Z) bs :
  store_ok w → (0 ≤ c)%Z → _basis_shapes (self w) !! Z.to_nat c = Some bs →
  (0 ≤ c < _number_components (self w))%Z.
Proof.
  intros Hok Hc Hbs. pose proof (lookup_lt_Some _ _ _ Hbs). destruct Hok. lia.
Qed.


(** X2: Setting one coefficient leaves the others of that component alone:
    for a different multi-index [k'] of the same basis shape,
    [get_coefficient(i, k')] returns the same view with the same content
    before and after [set_coefficient(i, k, v)]. *)
Theorem set_coefficient_keeps_others (w : world F) (c : Z) bs k key k' key' v :
  store_ok w → (0 ≤ c)%Z →
  _basis_shapes (self w) !! Z.to_nat c = Some bs →
  bs_lima bs !! k = Some key →
  bs_lima bs !! k' = Some key' →
  k ≠ k' →
  ∃ w1 view x,
    set_coefficient c k v w = (Ok tt, w1) ∧
    get_coefficient c k' w = (Ok view, w) ∧
    get_coefficient c k' w1 = (Ok view, w1) ∧
    read (mem w) view = Some [x] ∧
    read (mem w1) view = Some [x].
Proof.
  intros Hok Hc Hbs Hk Hk' Hne.
  pose proof (store_ok_index w c bs Hok Hc Hbs) as Hcn.
  destruct (store_ok_component w _ bs Hok Hbs) as (Hwf & Hsz & a & d & Ha & Hsa & Hd & Hld).
  pose proof (wf_lima_bound _ Hwf _ _ Hk) as Hkey.
  pose proof (wf_lima_bound _ Hwf _ _ Hk') as Hkey'.
  assert (key ≠ key') as Hkne.
  { intros ->. apply Hne. by eapply (wf_lima_inj bs). }
  destruct (read_is_Some_buffer _ _ _ Hd) as [buf Hbuf].
  destruct (lookup_lt_is_Some_2 d key') as [x Hx]; [lia|].
  assert (read (mem w) (NdArray (nd_base a) (nd_offset a + key') 1) = Some [x]) as Hview.
  { rewrite (read_block _ a d key' 1 Hd) by lia. f_equal.
    rewrite (drop_S _ _ _ Hx). done. }
  eexists _, _, x. split; [by eapply set_coefficient_run; try done; lia|].
  split; [by eapply get_coefficient_run; try done; lia|].
  split; [by eapply get_coefficient_run; try done; simpl; lia|].
  split; [done|]. simpl.
  rewrite (read_after_insert _ _ [x] _ _ _ _ Hbuf Hview). simpl.
  rewrite bool_decide_eq_false_2 by lia. done.
Qed.

(** X3: Access to a single coefficient is refused, with [ValueError] and
    without any change, for a component index outside [0, N) and for a
    multi-index that is not in the basis shape of the component. *)
Theorem single_coefficient_refused (w : world F) (c : Z) (k : list nat) (v : F) :
  ((c < 0 ∨ _number_components (self w) ≤ c)%Z →
     set_coefficient c k v w = (Raise ValueError, w) ∧
     get_coefficient c k w = (Raise ValueError, w)) ∧
  (∀ bs, (0 ≤ c < _number_components (self w))%Z →
     _basis_shapes (self w) !! Z.to_nat c = Some bs →
     bs_lima bs !! k = None →
     set_coefficient c k v w = (Raise ValueError, w) ∧
     get_coefficient c k w = (Raise ValueError, w)).
Proof.
  split.
  - intros Hc. unfold set_coefficient, get_coefficient, mbind, M_bind, gets. simpl.
    destruct Hc.
    + rewrite (bool_decide_eq_true_2 (c < 0)%Z) by done. by rewrite orb_true_r.
    + by rewrite (bool_decide_eq_true_2 (c > _ - 1)%Z) by lia.
  - intros bs Hc Hbs Hk. unfold set_coefficient, get_coefficient, mbind, M_bind, gets.
    simpl. rewrite !bool_decide_eq_false_2 by lia. simpl.
    unfold get_basis_shapes_item, mbind, M_bind, gets, lift, list_getitem. simpl.
    rewrite Hbs. unfold bs_contains. rewrite Hk.
    rewrite bool_decide_eq_false_2 by (by intros [? ?]). done.
Qed.

End SingleCoefficient.

Section Copies.
Context {F : Type} `{Numeric F}.


Lemma read_extend (h ext : list (list F)) a d :
  read h a = Some d → read (h ++ ext) a = Some d.
Proof.
  unfold read. destruct (h !! nd_base a) as [buf|] eqn:Hb; simpl; [|done].
  by rewrite (lookup_app_l_Some _ _ _ _ Hb).
Qed.



End Copies.

Section SetAll.
Context {F : Type} `{Numeric F}.

Lemma store_loop_ok (values : list ndarray) : ∀ (w : world F) index,
  (∀ t v, values !! t = Some v →
      _basis_sizes (self w) !! (index + t) = Some (nd_size v) ∧
      is_Some (read (mem w) v)) →
  index + length values ≤ length (_coefficients (self w)) →
  ∃ w', for_enumerate store_copy index values w = (Ok tt, w') ∧
    frame w w' ∧
    (∀ t, t < index ∨ index + length values ≤ t →
          _coefficients (self w') !! t = _coefficients (self w) !! t) ∧
    (∀ t v d, values !! t = Some v → read (mem w) v = Some d →
       ∃ c, _coefficients (self w') !! (index + t) = Some c ∧
            nd_size c = nd_size v ∧
            read (mem w') c = Some d ∧ length (mem w) ≤ nd_base c).
Proof.
  induction values as [|v values IH]; intros w index Hvals Hlen.
  - exists w. split; [done|]. split; [apply frame_refl|]. split; [done|].
    intros t v d Hv. done.
  - destruct (Hvals 0 v eq_refl) as [Hs [d Hd]]. rewrite Nat.add_0_r in Hs.
    simpl in Hlen.
    set (w1 := World (set_coefficients_field
                     (<[index := NdArray (length (mem w)) 0 (nd_size v)]>
                        (_coefficients (self w))) (self w))
                  (mem w ++ [d])).
    assert (frame w w1) as Hf.
    { split; try done; simpl; [by rewrite length_insert|by eexists]. }
    destruct (IH w1 (S index)) as (w' & Hrun & Hf' & Hout & Hin).
    { intros t v' Hv'. destruct (Hvals (S t) v' Hv') as [Hs' [d' Hd']].
      simpl. rewrite <- Nat.add_succ_r. split; [done|]. exists d'. by apply read_alloc_old. }
    { simpl. rewrite length_insert. lia. }
    exists w'. split; [|split; [|split]].
    + simpl. unfold mbind, M_bind. rewrite (store_copy_ok w index v d) by (done || lia).
      exact Hrun.
    + by eapply frame_trans.
    + intros t Ht. simpl in Ht. rewrite Hout by lia. simpl.
      apply list_lookup_insert_ne. lia.
    + intros [|t] v' d' Hv' Hd'.
      * simpl in Hv'. injection Hv' as <-. rewrite Hd in Hd'. injection Hd' as <-.
        rewrite Nat.add_0_r. rewrite Hout by lia. simpl.
        rewrite list_lookup_insert_eq by lia. eexists. split; [done|]. split; [done|].
        split; [|done].
        eapply (frame_read w1 w'); [done|]. simpl.
        rewrite <- (read_length _ _ _ Hd). apply read_alloc_new.
      * simpl in Hv'. destruct (Hin t v' d' Hv') as (c & Hc & Hsc & Hrc & Hfresh).
        { by apply read_alloc_old. }
        exists c. rewrite Nat.add_succ_r. split; [done|]. split; [done|]. split; [done|].
        simpl in Hfresh. rewrite length_app in Hfresh. lia.
Qed.

(** X6: [set_coefficients(values)] for all components, with one readable
    array per component of the size of that component's basis: the call
    succeeds, every component holds a copy of the array supplied for it,
    in a newly allocated buffer, everything else in the object is as
    before, and the storage still fits the basis shapes. *)
Theorem set_coefficients_all_copies (w : world F) (values : list ndarray) :
  store_ok w →
  Forall2 (λ v n, nd_size v = n ∧ is_Some (read (mem w) v)) values (_basis_sizes (self w)) →
  ∃ w', set_coefficients None values w = (Ok tt, w') ∧
    frame w w' ∧ store_ok w' ∧
    ∀ t v d, values !! t = Some v → read (mem w) v = Some d →
      ∃ c, _coefficients (self w') !! t = Some c ∧
           read (mem w') c = Some d ∧ length (mem w) ≤ nd_base c.
Proof.
  intros Hok Hvals. pose proof Hok as [Hn Hwf Hs Hc].
  pose proof (Forall2_length _ _ _ Hvals) as Hlv.
  pose proof (Forall2_length _ _ _ Hc) as Hlc.
  assert (length (_basis_sizes (self w)) = length (_basis_shapes (self w))) as Hls
    by (by rewrite Hs, length_fmap).
  destruct (store_loop_ok values w 0) as (w' & Hrun & Hf & Hout & Hin).
  { intros t v Hv. destruct (Forall2_lookup_l _ _ _ _ _ Hvals Hv) as (n & Hn' & <- & Hr).
    done. }
  { lia. }
  exists w'. split; [by rewrite set_coefficients_all_loop by lia|].
  split; [done|]. split.
  - destruct Hf as [Hfd Hfe Hfn Hfs Hfz Hfl Hfm]. split.
    + by rewrite Hfs, Hfn.
    + by rewrite Hfs.
    + by rewrite Hfs, Hfz.
    + rewrite Hfz. apply Forall2_same_length_lookup_2; [lia|].
      intros t c n Hct Hnt.
      destruct (Forall2_lookup_r _ _ _ _ _ Hvals Hnt) as (v & Hv & Hsv & [d Hd]).
      destruct (Hin t v d Hv Hd) as (c' & Hc' & Hsc & Hrc & _).
      simpl in Hc'. simplify_eq. split; [lia|eauto].
  - intros t v d Hv Hd. destruct (Hin t v d Hv Hd) as (c & Hc' & _ & Hrc & Hfresh).
    eauto.
Qed.
End SetAll.

Section Invariant.
Context {F : Type} `{Numeric F}.

Lemma store_ok_reshaped (w : world F) (i : nat) A B new :
  store_ok w → _basis_shapes (self w) !! i = Some A → wf_shape B →
  length new = bs_basissize B →
  store_ok (reshaped w i B new).
Proof.
  intros [Hn Hwf Hs Hc] HA HB Hl. pose proof (lookup_lt_Some _ _ _ HA) as Hi.
  split; simpl.
  - by rewrite length_insert.
  - by apply Forall_insert.
  - done.
  - rewrite list_fmap_insert, <- Hs. apply Forall2_insert.
    + eapply Forall2_impl; [exact Hc|]. intros c n [Hsz [d Hd]]. split; [done|].
      exists d. by apply read_alloc_old.
    + split; [done|]. exists new. rewrite <- Hl. apply read_alloc_new.
Qed.

(** X7: for a basis shape [B] that has a multi-index in common with the
    shape [A] of component [i], [set_basis_shape(B, i)] keeps the storage
    fitting the basis shapes, and afterwards [get_basis_shape(i)] returns
    [B] and [get_basis_shape()] the former shapes with entry [i]
    replaced. *)
Theorem set_basis_shape_keeps_storage (w : world F) (i : nat) (A B : BasisShape) :
  store_ok w → _basis_shapes (self w) !! i = Some A → wf_shape B →
  overlapping A B →
  ∃ w', set_basis_shape (Some (Z.of_nat i)) B w = (Ok tt, w') ∧
        store_ok w' ∧
        get_basis_shape (Some (Z.of_nat i)) w' = (Ok B, w') ∧
        get_basis_shape None w' = (Ok (<[i := B]> (_basis_shapes (self w))), w').
Proof.
  intros Hok HA HB Hov.
  destruct (store_ok_component w i A Hok HA) as (HwA & Hsz & c & d & Hc & Hsc & Hd & Hld).
  destruct (remap_spec A B d HwA HB Hld Hov) as (new & Hm & Hl & _).
  pose proof (lookup_lt_Some _ _ _ HA) as Hi.
  exists (reshaped w i B new). split.
  { eapply set_basis_shape_run; try done. destruct Hok. lia. }
  split; [by eapply store_ok_reshaped|].
  split; [|done].
  unfold get_basis_shape, mbind, M_bind, gets, lift, py_getitem, list_getitem. simpl.
  rewrite bool_decide_eq_true_2 by lia. rewrite Nat2Z.id.
  by rewrite list_lookup_insert_eq.
Qed.

(** X8: [set_coefficient] keeps the storage fitting the basis shapes. *)
Theorem set_coefficient_keeps_storage (w : world F) (c : Z) bs k key v :
  store_ok w → (0 ≤ c)%Z →
  _basis_shapes (self w) !! Z.to_nat c = Some bs →
  bs_lima bs !! k = Some key →
  ∃ w', set_coefficient c k v w = (Ok tt, w') ∧ store_ok w'.
Proof.
  intros Hok Hc Hbs Hk.
  pose proof (store_ok_index w c bs Hok Hc Hbs) as Hcn.
  destruct (store_ok_component w _ bs Hok Hbs) as (Hwf & Hsz & a & d & Ha & Hsa & Hd & Hld).
  pose proof (wf_lima_bound _ Hwf _ _ Hk) as Hkey.
  destruct (read_is_Some_buffer _ _ _ Hd) as [buf Hbuf].
  eexists. split; [by eapply set_coefficient_run; try done; lia|].
  destruct Hok as [Hn Hwfs Hs Hcs]. split; simpl; try done.
  eapply Forall2_impl; [exact Hcs|]. intros b n [Hb [db Hdb]]. split; [done|].
  rewrite (read_after_insert _ _ db _ _ _ _ Hbuf Hdb). eauto.
Qed.

(** X9: [set_coefficient_vector(vector)] installs views into the caller's
    array: for a wavepacket with at least one component whose shapes and
    cached sizes agree, and a readable [vector] of the total basis size,
    the storage fits the basis shapes afterwards, and a later
    [set_coefficient(i, k, v)] overwrites the entry of [vector] at the
    offset of component [i] plus the linear index of [k]. *)
Theorem set_coefficient_vector_aliases
    (w : world F) (vector : ndarray) (data : list F) (i : nat) bs k key v :
  Z.of_nat (length (_basis_shapes (self w))) = _number_components (self w) →
  Forall wf_shape (_basis_shapes (self w)) →
  _basis_sizes (self w) = get_basissize <$> _basis_shapes (self w) →
  read (mem w) vector = Some data →
  nd_size vector = sum_list (_basis_sizes (self w)) →
  _basis_shapes (self w) !! i = Some bs →
  bs_lima bs !! k = Some key →
  ∃ w1 w2,
    set_coefficient_vector vector w = (Ok tt, w1) ∧
    store_ok w1 ∧
    set_coefficient (Z.of_nat i) k v w1 = (Ok tt, w2) ∧
    read (mem w2) vector
      = Some (<[sum_list (take i (_basis_sizes (self w))) + key := v]> data).
Proof.
  intros Hn Hwf Hs Hr Hsz Hbs Hk.
  set (sizes := _basis_sizes (self w)) in *.
  assert (sizes !! i = Some (bs_basissize bs)) as Hsi.
  { rewrite Hs, list_lookup_fmap, Hbs. done. }
  assert (sizes ≠ []) as Hne by (intros E; by rewrite E in Hsi).
  assert (vsplit vector (drop_last (cumsum sizes)) = blocks vector 0 sizes) as Hv.
  { unfold vsplit, cumsum. rewrite Hsz.
    rewrite <- (Nat.add_0_l (sum_list sizes)), cumsum_points by done.
    apply sub_arrays_blocks. lia. }
  set (w1 := World (set_coefficients_field (blocks vector 0 sizes) (self w)) (mem w)).
  assert (set_coefficient_vector vector w = (Ok tt, w1)) as Hrun.
  { unfold set_coefficient_vector, mbind, M_bind, gets, modify. simpl.
    fold sizes. by rewrite Hv. }
  assert (∀ t n, sizes !! t = Some n → sum_list (take t sizes) + n ≤ nd_size vector) as Hbound.
  { intros t n Ht. rewrite Hsz. rewrite <- (take_drop_middle _ _ _ Ht) at 2.
    rewrite sum_list_with_app. simpl. lia. }
  assert (store_ok w1) as Hok1.
  { split; simpl; try done. fold sizes. apply Forall2_same_length_lookup_2.
    - clear. generalize 0. induction sizes as [|n l IH]; intros st; simpl; [done|].
      by rewrite IH.
    - intros t c n Hc Ht. rewrite (blocks_lookup vector sizes 0 t n Ht) in Hc.
      injection Hc as <-. split; [done|].
      eexists. apply (read_block _ vector data); [done|]. by apply Hbound. }
  pose proof (lookup_lt_Some _ _ _ Hbs) as Hi.
  pose proof (wf_lima_bound _ (Forall_lookup_1 _ _ _ _ Hwf Hbs) _ _ Hk) as Hkey.
  destruct (read_is_Some_buffer _ _ _ Hr) as [buf Hbuf].
  exists w1. eexists. split; [done|]. split; [done|].
  split.
  { eapply (set_coefficient_run w1 (Z.of_nat i) bs k key
              (NdArray (nd_base vector) (nd_offset vector + (0 + sum_list (take i sizes)))
                       (bs_basissize bs)) buf); simpl; try done.
    - lia.
    - by rewrite Nat2Z.id.
    - rewrite Nat2Z.id. by apply blocks_lookup. }
  simpl. rewrite (read_after_insert _ _ data _ _ _ _ Hbuf Hr).
  pose proof (Hbound i _ Hsi).
  rewrite bool_decide_eq_true_2 by lia. do 2 f_equal. lia.
Qed.

(** X10: [set_basis_shape] refuses a component index outside [0, N) with
    [ValueError] and changes nothing, a negative index included, while
    [get_basis_shape] indexes the list of shapes as Python does: a
    negative index counts from the end. *)
Theorem basis_shape_component_index (w : world F) (c : Z) (B : BasisShape) :
  Z.of_nat (length (_basis_shapes (self w))) = _number_components (self w) →
  ((c < 0 ∨ _number_components (self w) ≤ c)%Z →
     set_basis_shape (Some c) B w = (Raise ValueError, w)) ∧
  (∀ bs, (- _number_components (self w) ≤ c < 0)%Z →
     _basis_shapes (self w) !! Z.to_nat (_number_components (self w) + c) = Some bs →
     get_basis_shape (Some c) w = (Ok bs, w)) ∧
  ((c < - _number_components (self w) ∨ _number_components (self w) ≤ c)%Z →
     get_basis_shape (Some c) w = (Raise IndexError, w)).
Proof.
  intros Hn. split; [|split].
  - intros Hc. unfold set_basis_shape, mbind, M_bind, gets. simpl.
    by rewrite bool_decide_eq_false_2 by lia.
  - intros bs Hc Hbs. rewrite <- Hn in Hbs.
    unfold get_basis_shape, mbind, M_bind, gets, lift, py_getitem, list_getitem.
    cbn [self]. rewrite bool_decide_eq_false_2 by lia.
    rewrite bool_decide_eq_true_2 by lia.
    assert (∀ o : option BasisShape, o = Some bs →
              (match o with Some x => Ok x | None => Raise IndexError end, w) = (Ok bs, w))
      as E by (by intros ? ->).
    apply E. exact Hbs.
  - intros Hc.
    unfold get_basis_shape, mbind, M_bind, gets, lift, py_getitem, list_getitem. simpl.
    destruct Hc as [Hc|Hc].
    + rewrite bool_decide_eq_false_2 by lia. by rewrite bool_decide_eq_false_2 by lia.
    + rewrite bool_decide_eq_true_2 by lia.
      by rewrite lookup_ge_None_2 by lia.
Qed.
End Invariant.

Section SameShape.
Context {F : Type} `{Numeric F}.

(** The linear index mapping of a basis shape reaches every index below
    the basis size. *)
Lemma wf_lima_surj (bs : BasisShape) (j : nat) :
  wf_shape bs → j < bs_basissize bs → ∃ k, bs_lima bs !! k = Some j.
Proof.
  intros Hwf Hj.
  destruct (getitem_all bs (bs_iter bs)) as (idx & _ & Hidx).
  { intros k Hk. by apply (wf_iter_lima _ Hwf). }
  pose proof (getitem_NoDup bs _ _ Hwf (wf_iter_nodup _ Hwf) Hidx) as Hnd.
  pose proof (Forall2_length _ _ _ Hidx) as Hlen.
  assert (idx ⊆+ seq 0 (bs_basissize bs)) as Hsub.
  { apply NoDup_submseteq; [done|]. intros x Hx.
    apply list_elem_of_lookup in Hx as [t Ht].
    destruct (Forall2_lookup_r _ _ _ _ _ Hidx Ht) as (k & _ & Hk).
    apply elem_of_seq. pose proof (wf_lima_bound _ Hwf _ _ Hk). lia. }
  apply submseteq_length_Permutation in Hsub.
  - assert (j ∈ idx) as Hin by (rewrite Hsub; apply elem_of_seq; lia).
    apply list_elem_of_lookup in Hin as [t Ht].
    destruct (Forall2_lookup_r _ _ _ _ _ Hidx Ht) as (k & _ & Hk). eauto.
  - rewrite length_seq, <- Hlen. by rewrite (wf_size _ Hwf).
Qed.

(** X11: Setting the basis shape a component already has, when that
    shape is not empty, changes no coefficient: the component gets a new
    array with the content of the old one. *)
Theorem set_same_basis_shape (w : world F) (i : nat) (A : BasisShape) :
  store_ok w → _basis_shapes (self w) !! i = Some A →
  0 < bs_basissize A →
  ∃ w' c old cnew,
    _coefficients (self w) !! i = Some c ∧ read (mem w) c = Some old ∧
    set_basis_shape (Some (Z.of_nat i)) A w = (Ok tt, w') ∧
    _coefficients (self w') !! i = Some cnew ∧
    nd_base cnew = length (mem w) ∧
    read (mem w') cnew = Some old.
Proof.
  intros Hok HA Hpos.
  destruct (store_ok_component w i A Hok HA) as (HwA & Hsz & c & d & Hc & Hsc & Hd & Hld).
  assert (overlapping A A) as Hov.
  { destruct (wf_lima_surj A 0 HwA Hpos) as [k Hk]. exists k. split; by eexists. }
  destruct (remap_spec A A d HwA HwA Hld Hov) as (new & Hm & Hl & Hboth & _).
  pose proof (lookup_lt_Some _ _ _ HA) as Hi.
  pose proof (lookup_lt_Some _ _ _ Hc) as Hic.
  assert (new = d) as ->.
  { apply list_eq. intros j. destruct (decide (j < bs_basissize A)) as [Hj|Hj].
    - destruct (wf_lima_surj A j HwA Hj) as [k Hk]. by apply (Hboth k).
    - rewrite !lookup_ge_None_2 by lia. done. }
  exists (reshaped w i A d), c, d, (NdArray (length (mem w)) 0 (bs_basissize A)).
  split; [done|]. split; [done|]. split.
  { eapply set_basis_shape_run; try done. destruct Hok. lia. }
  simpl. split; [by apply list_lookup_insert_eq|]. split; [done|].
  rewrite <- Hl. apply read_alloc_new.
Qed.
End SameShape.

Section AllShapes.
Context {F : Type} `{Numeric F}.

Lemma reshape_component_run (w : world F) (index : nat) A B :
  fits w → _basis_shapes (self w) !! index = Some A → wf_shape B →
  overlapping A B →
  ∃ c old new w1,
    _coefficients (self w) !! index = Some c ∧ read (mem w) c = Some old ∧
    remap A B old = Ok new ∧ length new = bs_basissize B ∧
    reshape_component index B w = (Ok tt, w1) ∧
    fits w1 ∧
    _basis_shapes (self w1) = <[index := B]> (_basis_shapes (self w)) ∧
    _coefficients (self w1)
      = <[index := NdArray (length (mem w)) 0 (bs_basissize B)]> (_coefficients (self w)) ∧
    mem w1 = mem w ++ [new] ∧
    _number_components (self w1) = _number_components (self w) ∧
    _dimension (self w1) = _dimension (self w) ∧
    _eps (self w1) = _eps (self w) ∧
    _basis_sizes (self w1) = _basis_sizes (self w).
Proof.
  intros [Hwf Hc] HA HB Hov.
  destruct (Forall2_lookup_r _ _ _ _ _ Hc HA) as (c & Hci & Hsc & [old Hold]).
  assert (length old = bs_basissize A) as Hlo by (rewrite <- Hsc; by eapply read_length).
  destruct (remap_spec A B old (Forall_lookup_1 _ _ _ _ Hwf HA) HB Hlo Hov)
    as (new & Hm & Hl & _).
  pose proof (lookup_lt_Some _ _ _ HA) as Hi.
  exists c, old, new. eexists. split; [done|]. split; [done|]. split; [done|].
  split; [done|]. split.
  { unfold reshape_component, mbind, M_bind, get_basis_shapes_item, gets, lift,
      list_getitem. simpl. rewrite HA.
    unfold mbind, M_bind. rewrite (resize_run w index A B c old new) by done.
    unfold set_basis_shapes_item, mbind, M_bind, gets, modify. simpl.
    by rewrite bool_decide_eq_true_2 by done. }
  simpl. split; [|done]. split; simpl.
  - by apply Forall_insert.
  - apply Forall2_insert.
    + eapply Forall2_impl; [exact Hc|]. intros b bs [Hb [d Hd]]. split; [done|].
      exists d. by apply read_alloc_old.
    + split; [done|]. exists new. rewrite <- Hl. apply read_alloc_new.
Qed.

Lemma reshape_loop (news : list BasisShape) : ∀ (w : world F) index,
  fits w → index + length news ≤ length (_basis_shapes (self w)) →
  Forall wf_shape news →
  (∀ t A B, _basis_shapes (self w) !! (index + t) = Some A → news !! t = Some B →
            overlapping A B) →
  ∃ w', for_enumerate reshape_component index news w = (Ok tt, w') ∧
    fits w' ∧
    _number_components (self w') = _number_components (self w) ∧
    _dimension (self w') = _dimension (self w) ∧
    _eps (self w') = _eps (self w) ∧
    _basis_sizes (self w') = _basis_sizes (self w) ∧
    (∃ ext, mem w' = mem w ++ ext) ∧
    length (_basis_shapes (self w')) = length (_basis_shapes (self w)) ∧
    (∀ t, t < index ∨ index + length news ≤ t →
       _basis_shapes (self w') !! t = _basis_shapes (self w) !! t ∧
       _coefficients (self w') !! t = _coefficients (self w) !! t) ∧
    (∀ t B, news !! t = Some B → _basis_shapes (self w') !! (index + t) = Some B) ∧
    (∀ t B A c old, news !! t = Some B →
       _basis_shapes (self w) !! (index + t) = Some A →
       _coefficients (self w) !! (index + t) = Some c →
       read (mem w) c = Some old →
       ∃ c' new, _coefficients (self w') !! (index + t) = Some c' ∧
                 length (mem w) ≤ nd_base c' ∧
                 read (mem w') c' = Some new ∧ remap A B old = Ok new).
Proof.
  induction news as [|B news IH]; intros w index Hfit Hlen Hwfn Hov.
  - exists w. split; [done|]. repeat (split; [done|]).
    split; [exists []; by rewrite app_nil_r|]. split; [done|]. split; [done|].
    split; [intros t B HB; done|intros t B A c old HB; done].
  - simpl in Hlen. apply Forall_cons in Hwfn as [HB Hwfn].
    destruct (lookup_lt_is_Some_2 (_basis_shapes (self w)) index) as [A HA]; [lia|].
    assert (overlapping A B) as HovAB.
    { apply (Hov 0); [by rewrite Nat.add_0_r|done]. }
    destruct (reshape_component_run w index A B Hfit HA HB HovAB)
      as (c & old & new & w1 & Hc & Hold & Hm & Hl & Hrun & Hfit1 & Hsh1 & Hco1 & Hmem1
          & Hn1 & Hd1 & He1 & Hs1).
    destruct (IH w1 (S index) Hfit1) as (w' & Hrun' & Hfit' & Hn' & Hd' & He' & Hs' & [ext Hext]
          & Hlen' & Hout & Hnew & Hin).
    { rewrite Hsh1, length_insert. lia. }
    { done. }
    { intros t A' B' HA' HB'. apply (Hov (S t)); [|done].
      rewrite Hsh1 in HA'. rewrite list_lookup_insert_ne in HA' by lia.
      by rewrite Nat.add_succ_r. }
    exists w'. split.
    { simpl. unfold mbind, M_bind. rewrite Hrun. exact Hrun'. }
    split; [done|]. split; [congruence|]. split; [congruence|]. split; [congruence|].
    split; [congruence|]. split.
    { exists ([new] ++ ext). by rewrite Hext, Hmem1, app_assoc. }
    split; [by rewrite Hlen', Hsh1, length_insert|].
    split; [|split].
    + intros t Ht. simpl in Ht. destruct (Hout t) as [Ha Hb]; [lia|].
      rewrite Ha, Hb, Hsh1, Hco1.
      split; apply list_lookup_insert_ne; lia.
    + intros [|t] B' HB'; simpl in HB'.
      * injection HB' as <-. rewrite Nat.add_0_r.
        destruct (Hout index) as [Ha _]; [lia|]. rewrite Ha, Hsh1.
        apply list_lookup_insert_eq. by eapply lookup_lt_Some.
      * rewrite Nat.add_succ_r. by apply Hnew.
    + intros [|t] B' A' c' old' HB' HA' Hc' Hold'; simpl in HB'.
      * injection HB' as <-. rewrite Nat.add_0_r in *. simplify_eq.
        destruct (Hout index) as [_ Hb]; [lia|].
        exists (NdArray (length (mem w)) 0 (bs_basissize B)), new.
        rewrite Hb, Hco1. split; [apply list_lookup_insert_eq; by eapply lookup_lt_Some|].
        split; [done|]. split; [|done].
        rewrite Hext, Hmem1. apply read_extend. rewrite <- Hl. apply read_alloc_new.
      * rewrite Nat.add_succ_r in *.
        destruct (Hin t B' A' c' old' HB') as (c2 & new2 & Hc2 & Hf2 & Hr2 & Hm2).
        { rewrite Hsh1. rewrite list_lookup_insert_ne by lia. done. }
        { rewrite Hco1. rewrite list_lookup_insert_ne by lia. done. }
        { rewrite Hmem1. by apply read_alloc_old. }
        exists c2, new2. split; [done|]. split; [|done].
        rewrite Hmem1, length_app in Hf2. simpl in Hf2. lia.
Qed.

(** X12: [set_basis_shape(shapes)] for all components, with one shape per
    component, each with a multi-index in common with the shape the
    component has: the call succeeds, the basis shapes are the given ones,
    the storage fits them, and each component holds a new array with the
    entries of its old vector carried over at the multi-indices common to
    its old and new shape and zero elsewhere. *)
Theorem set_basis_shape_all_components (w : world F) (shapes : list BasisShape) :
  store_ok w →
  Z.of_nat (length shapes) = _number_components (self w) →
  Forall wf_shape shapes →
  Forall2 overlapping (_basis_shapes (self w)) shapes →
  ∃ w', set_basis_shape None shapes w = (Ok tt, w') ∧
    store_ok w' ∧
    _basis_shapes (self w') = shapes ∧
    ∀ t A B c old,
      _basis_shapes (self w) !! t = Some A → shapes !! t = Some B →
      _coefficients (self w) !! t = Some c → read (mem w) c = Some old →
      ∃ c' new, _coefficients (self w') !! t = Some c' ∧
        length (mem w) ≤ nd_base c' ∧
        read (mem w') c' = Some new ∧
        length new = bs_basissize B ∧
        (∀ k jA jB, bs_lima A !! k = Some jA → bs_lima B !! k = Some jB →
                    new !! jB = old !! jA) ∧
        (∀ j, j < bs_basissize B →
              (¬ ∃ k, is_Some (bs_lima A !! k) ∧ bs_lima B !! k = Some j) →
              new !! j = Some (lit 0)).
Proof.
  intros Hok Hn Hwfn Hov. pose proof Hok as [HnN Hwf Hs Hc].
  assert (fits w) as Hfit.
  { split; [done|]. rewrite Hs in Hc. apply Forall2_fmap_r in Hc. done. }
  destruct (reshape_loop shapes w 0 Hfit) as (w1 & Hrun & [Hwf1 Hc1] & Hn1 & Hd1 & He1 & Hs1
      & Hext & Hlen1 & Hout & Hnew & Hin); [lia|done| |].
  { intros t A B HA HB. simpl in HA.
    destruct (Forall2_lookup_l _ _ _ _ _ Hov HA) as (B' & HB' & HAB). by simplify_eq. }
  assert (_basis_shapes (self w1) = shapes) as Hshapes.
  { apply list_eq. intros t. destruct (shapes !! t) as [B|] eqn:HB.
    - by apply (Hnew t B).
    - apply lookup_ge_None in HB. apply lookup_ge_None. lia. }
  exists (World (set_basis_sizes_field (get_basissize <$> _basis_shapes (self w1)) (self w1))
                (mem w1)).
  split.
  { unfold set_basis_shape, mbind, M_bind, gets. simpl.
    rewrite bool_decide_eq_true_2 by done. simpl.
    change (for_enumerate _ 0 shapes w) with (for_enumerate reshape_component 0 shapes w).
    unfold mbind, M_bind. by rewrite Hrun. }
  split.
  { split; simpl; try done.
    - rewrite Hlen1. congruence.
    - by apply Forall2_fmap_r. }
  split; [done|].
  intros t A B c old HA HB Hct Hold.
  destruct (Hin t B A c old HB HA Hct Hold) as (c' & new & Hc' & Hfresh & Hr' & Hm).
  exists c', new. simpl in *. split; [done|]. split; [done|]. split; [done|].
  assert (length old = bs_basissize A) as Hlo.
  { destruct (store_ok_component w t A Hok HA) as (_ & _ & c2 & d2 & Hc2 & _ & Hd2 & Hl2).
    simplify_eq. done. }
  assert (overlapping A B) as HovAB.
  { destruct (Forall2_lookup_l _ _ _ _ _ Hov HA) as (B' & HB' & HAB). by simplify_eq. }
  destruct (remap_spec A B old (Forall_lookup_1 _ _ _ _ Hwf HA)
              (Forall_lookup_1 _ _ _ _ Hwfn HB) Hlo HovAB)
    as (new' & Hm' & Hl' & Hboth & Hrest).
  rewrite Hm in Hm'. injection Hm' as <-. done.
Qed.
End AllShapes.

(** ** Rules built by the constructors *)

Section BuiltRules.
Context {F : Type} `{Numeric F}.

Lemma foldl_hermite_step_length (nodes : list F) (ks : list nat) : ∀ H0 : list (list F),
  length (foldl (hermite_step nodes) H0 ks) = length H0.
Proof.
  induction ks as [|k ks IH]; intros H0; simpl; [done|].
  rewrite IH. unfold hermite_step. by rewrite length_insert.
Qed.

Lemma gauss_hermite_recursion_length (order : Z) (nodes : list F) :
  length (GaussHermiteQR._hermite_recursion order nodes) = Z.to_nat order.
Proof.
  unfold GaussHermiteQR._hermite_recursion. case_bool_decide.
  - by rewrite foldl_hermite_step_length, !length_insert, length_replicate.
  - by rewrite length_insert, length_replicate.
Qed.

Lemma gauss_hermite_last_row (order : Z) (nodes : list F) :
  (1 ≤ order)%Z →
  default [] (last (GaussHermiteQR._hermite_recursion order nodes))
  = hermite_function (Z.to_nat (order - 1)) <$> nodes.
Proof.
  intros Ho. rewrite last_lookup, gauss_hermite_recursion_length.
  replace (Nat.pred (Z.to_nat order)) with (Z.to_nat (order - 1)) by lia.
  apply (gauss_hermite_rows order nodes (Z.to_nat (order - 1))). lia.
Qed.

(** X13: [GaussHermiteQR(order)] with order one or above: the rule built from
    the nodes of the root finder has these nodes, unchanged, as its
    [(1,n)] node array, reports [n] nodes, and its weights are
    [1/(h(x)^2 * order)] for the Hermite function [h] of degree
    [order - 1] of the recursion, at the real parts of the nodes; the
    weights the root finder returned are not used. *)
Theorem gauss_hermite_rule rf (order : Z) (options : gmap string pyatom)
    (nodes raw : list F) :
  (1 ≤ order)%Z →
  rf (h_roots order) = Ok (nodes, raw) →
  run rf (GaussHermiteQR.__init__ order options)
  = Ok (GaussHermite order options (length nodes) [nodes]
          [gauss_hermite_weight order <$> nodes]).
Proof.
  intros Ho Hrf. unfold GaussHermiteQR.__init__.
  rewrite bool_decide_eq_true_2 by lia. simpl. rewrite Hrf. simpl.
  rewrite gauss_hermite_last_row by done. do 3 f_equal.
  rewrite <- !list_fmap_compose. done.
Qed.

(** X14: [GaussLaguerreQR(order, a)] with order two or above: the rule built
    from the nodes of the root finder has the real parts of these nodes as
    its [(1,n)] node array, reports [n] nodes, and its weights are the
    real parts of [c * sqrt(x) / (h_{2R-2}(s) * h_{2R-1}(s))] with
    [s = real(sqrt(x))], [c = sqrt(2R-1) / (sqrt(2) * (R^2 - R/2))] and
    [h_k] the Hermite functions of the recursion; the weights the root
    finder returned are not used. *)
Theorem gauss_laguerre_rule rf (order : Z) (a : F) (options : gmap string pyatom)
    (nodes raw : list F) :
  (2 ≤ order)%Z →
  rf (la_roots order a) = Ok (nodes, raw) →
  run rf (GaussLaguerreQR.__init__ order a options)
  = Ok (GaussLaguerre order a options (length nodes) [np_real <$> nodes]
          [np_real <$> (laguerre_weight order <$> nodes)]).
Proof.
  intros Ho Hrf. unfold GaussLaguerreQR.__init__.
  rewrite bool_decide_eq_true_2 by lia. simpl. rewrite Hrf. simpl.
  by rewrite laguerre_weights_from_order_two by done.
Qed.

Lemma laguerre_rows_length (order : Z) (nodes : list F) (k : nat) :
  (1 ≤ order)%Z → (Z.of_nat k < 2 * order)%Z →
  length (row (GaussLaguerreQR._hermite_recursion order nodes) k) = length nodes.
Proof.
  intros Ho Hk. destruct (decide (order = 1%Z)) as [->|Hne].
  - rewrite laguerre_order_one_rows. destruct k as [|[|k]]; [| |lia].
    + apply length_fmap.
    + apply length_replicate.
  - rewrite laguerre_hermite_rows by lia. by rewrite length_fmap.
Qed.

(** X15: Every rule the two Gauss constructors build, for any order they
    accept and whatever the root finder returned as nodes, is a
    one-dimensional rule: a [(1,n)] node array and a [(1,n)] weight array
    with [n] the number of nodes reported. *)
Theorem gauss_rules_one_dimensional rf (order : Z) (a : F)
    (options : gmap string pyatom) (r : QuadratureRule F) :
  run rf (GaussHermiteQR.__init__ order options) = Ok r ∨
  run rf (GaussLaguerreQR.__init__ order a options) = Ok r →
  ∃ ns ws, one_dimensional r ns ws.
Proof.
  unfold GaussHermiteQR.__init__, GaussLaguerreQR.__init__.
  case_bool_decide as Ho; simpl; [|by intros [|]].
  intros [Hr|Hr].
  - destruct (rf (h_roots order)) as [[nodes raw]|]; [|done].
    simpl in Hr. injection Hr as <-. eexists _, _. split; [done|]. split; [done|].
    simpl. split; [done|].
    rewrite gauss_hermite_last_row by lia. by rewrite !length_fmap.
  - destruct (rf (la_roots order a)) as [[nodes raw]|]; [|done].
    simpl in Hr. injection Hr as <-. eexists _, _. split; [done|]. split; [done|].
    simpl. split; [by rewrite length_fmap|].
    unfold GaussLaguerreQR.transform_weights.
    rewrite length_fmap, !length_zip_with, !laguerre_rows_length by lia.
    rewrite !length_fmap. lia.
Qed.
End BuiltRules.

Section TensorEdges.
Context {F : Type} `{Numeric F}.

(** The shape of the arrays [tensor_product] computes from
    one-dimensional rules. *)
Lemma tensor_product_shapes (rules : list (QuadratureRule F)) :
  rules ≠ [] →
  Forall (λ r, ∃ ns ws, one_dimensional r ns ws) rules →
  let lens := get_number_nodes <$> rules in
  ∃ nodes weights,
    TensorProductQR.tensor_product rules = Ok (nodes, weights) ∧
    length nodes = length rules ∧
    Forall (λ row, length row = product lens) nodes ∧
    length weights = product lens.
Proof.
  intros Hne H1d lens.
  pose proof (node_axes_lengths rules H1d) as Hnl.
  pose proof (weight_axes_lengths rules H1d) as Hwl.
  fold lens in Hnl, Hwl.
  assert (∀ (arrays : list (ndvalue F)) g,
            length <$> (ravel <$> arrays) = lens →
            g ∈ meshgrid_nd arrays → length g = product lens) as Hgrid.
  { intros arrays g Hlens Hg. apply list_elem_of_lookup in Hg as [d Hd].
    pose proof (lookup_lt_Some _ _ _ Hd) as Hd'. rewrite length_meshgrid_nd in Hd'.
    destruct (lookup_lt_is_Some_2 _ _ Hd') as [a Ha].
    destruct (meshgrid_nd_lookup arrays d (ravel a)) as (g' & Hg' & Hlg & _).
    { by rewrite list_lookup_fmap, Ha. }
    rewrite Hlens in Hlg. congruence. }
  unfold TensorProductQR.tensor_product.
  destruct (meshgrid_nd (get_weights <$> rules)) as [|G0 Gs] eqn:HG.
  { apply (f_equal length) in HG. rewrite length_meshgrid_nd, length_fmap in HG.
    by destruct rules. }
  eexists _, _. split; [done|].
  split; [by rewrite length_meshgrid_nd, length_fmap|].
  split; [apply Forall_forall; intros row Hrow; by apply (Hgrid _ _ Hnl)|].
  apply foldl_zip_mul_length.
  - apply (Hgrid (get_weights <$> rules)); [done|]. rewrite HG. by left.
  - apply Forall_forall. intros G HGin.
    apply (Hgrid (get_weights <$> rules)); [done|]. rewrite HG. by right.
Qed.

(** X16: among the lists of one-dimensional rules, [TensorProductQR(rules)]
    fails exactly for the empty list, with the [TypeError] of [reduce];
    for every other one it builds a rule whose dimension is the number of
    constituents, whose number of nodes [n] is the product of theirs, with
    one row of [n] nodes per constituent and [n] weights. *)
Theorem tensor_product_fails_only_on_empty
    (rules : list (QuadratureRule F)) (options : gmap string pyatom) :
  Forall (λ r, ∃ ns ws, one_dimensional r ns ws) rules →
  (rules = [] → TensorProductQR.__init__ rules options = Raise TypeError) ∧
  (rules ≠ [] →
     ∃ nodes weights,
       TensorProductQR.__init__ rules options
       = Ok (TensorProduct (length rules) rules options
               (product (get_number_nodes <$> rules)) nodes weights) ∧
       length nodes = length rules ∧
       Forall (λ row, length row = product (get_number_nodes <$> rules)) nodes ∧
       length weights = product (get_number_nodes <$> rules)).
Proof.
  intros H1d. split; [by intros ->|]. intros Hne.
  destruct (tensor_product_shapes rules Hne H1d) as (nodes & weights & Htp & Hshape).
  exists nodes, weights. split; [|done].
  unfold TensorProductQR.__init__. rewrite Htp.
  by rewrite reduce_mul_product by (by destruct rules).
Qed.

Lemma stretch_one (l : list F) : stretch 1 l = l.
Proof.
  unfold stretch. induction l as [|x l IH]; [done|]. rewrite bind_cons, IH. done.
Qed.

Lemma tile_one (l : list F) : tile 1 l = l.
Proof. unfold tile. simpl. apply app_nil_r. Qed.

(** X17: The tensor product of a single one-dimensional rule is that rule
    again: the same nodes, the same weights, the same number of nodes. *)
Theorem tensor_product_of_one_rule
    (r : QuadratureRule F) (options : gmap string pyatom) (ns ws : list F) :
  one_dimensional r ns ws →
  TensorProductQR.__init__ [r] options
  = Ok (TensorProduct 1 [r] options (get_number_nodes r) [ns] ws).
Proof.
  intros (Hn & Hw & Hln & Hlw).
  unfold TensorProductQR.__init__, TensorProductQR.tensor_product, meshgrid_nd.
  simpl. rewrite Hn, Hw. simpl. rewrite !app_nil_r.
  unfold product. simpl. by rewrite !stretch_one, !tile_one.
Qed.
End TensorEdges.

(** ** The ground state on a grid *)

Section Phi0Shape.
Context {F : Type} `{Numeric F}.

Lemma has_shape_zip_with {X} (P : X → Prop) (f : X → list F → list F)
    (c : list X) (A : list (list F)) D N :
  (∀ x r, P x → length r = N → length (f x r) = N) →
  length c = D → Forall P c → has_shape A D N → has_shape (zip_with f c A) D N.
Proof.
  intros Hf Hc HP [HA Hrows]. split; [rewrite length_zip_with; lia|].
  apply Forall_forall. intros r Hr. apply list_elem_of_lookup in Hr as [t Ht].
  apply lookup_zip_with_Some in Ht as (x & r' & -> & Hx & Hr').
  apply Hf.
  - apply (Forall_lookup_1 _ _ _ _ HP Hx).
  - apply (Forall_lookup_1 _ _ _ _ Hrows Hr').
Qed.

Lemma has_shape_column_mul (c : list F) A D N :
  length c = D → has_shape A D N → has_shape (column_mul c A) D N.
Proof.
  intros. apply (has_shape_zip_with (λ _, True)); try done.
  - intros x r _ Hr. by rewrite length_fmap.
  - by apply Forall_true.
Qed.

Lemma has_shape_sub_column A (c : list F) D N :
  length c = D → has_shape A D N → has_shape (sub_column A c) D N.
Proof.
  intros Hc [HA Hrows]. unfold sub_column. split; [rewrite length_zip_with; lia|].
  apply Forall_forall. intros r Hr. apply list_elem_of_lookup in Hr as [t Ht].
  apply lookup_zip_with_Some in Ht as (r' & x & -> & Hr' & _).
  rewrite length_fmap. apply (Forall_lookup_1 _ _ _ _ Hrows Hr').
Qed.

Lemma has_shape_array_mul A B D N :
  has_shape A D N → has_shape B D N → has_shape (array_mul A B) D N.
Proof.
  intros [HA HrA] HB. apply (has_shape_zip_with (λ r, length r = N)); try done.
  intros x r Hx Hr. rewrite length_zip_with. lia.
Qed.

Lemma sum_axis0_length A D N :
  0 < D → has_shape A D N → length (sum_axis0 A) = N.
Proof.
  intros HD [HA Hrows]. destruct A as [|r rows]; [simpl in HA; lia|].
  apply Forall_cons in Hrows as [Hr Hrows]. simpl. clear HA.
  revert r Hr. induction rows as [|r' rows IH]; intros r Hr; [done|].
  apply Forall_cons in Hrows as [Hr' Hrows]. simpl. apply IH; [done|].
  rewrite length_zip_with. lia.
Qed.

Lemma has_shape_dot M X D N :
  0 < D → has_shape M D D → has_shape X D N → has_shape (dot M X) D N.
Proof.
  intros HD [HM HrM] HX. unfold dot. split; [by rewrite length_fmap|].
  apply Forall_fmap. eapply Forall_impl; [exact HrM|]. simpl. intros Mi HMi.
  apply (sum_axis0_length _ D); [done|]. by apply has_shape_column_mul.
Qed.

(** X18: [_evaluate_phi0] returns one amplitude per node: for a [(D,N)] array
    of nodes with [D >= 1], columns [q] and [p] of [D] entries, and
    [(D,D)] arrays [P] and [inv(Q)], the result has [N] entries. *)
Theorem evaluate_phi0_length (w : Wavepacket F) (Pi : ParameterSet)
    (nodes : list (list F)) (prefactor : bool) (D N : nat) :
  0 < D →
  has_shape nodes D N →
  length (Pi_q Pi) = D → length (Pi_p Pi) = D →
  has_shape (Pi_P Pi) D D → has_shape (la_inv (Pi_Q Pi)) D D →
  length (_evaluate_phi0 w Pi nodes prefactor) = N.
Proof.
  intros HD Hn Hq Hp HP HQ. unfold _evaluate_phi0.
  pose proof (has_shape_sub_column nodes (Pi_q Pi) D N Hq Hn) as Hdf.
  rewrite !length_fmap, length_zip_with, !length_fmap.
  rewrite (sum_axis0_length _ D N), (sum_axis0_length _ D N); try done.
  - lia.
  - by apply has_shape_column_mul.
  - apply has_shape_array_mul; [done|]. apply has_shape_dot; try done.
    by apply has_shape_array_mul.
Qed.
End Phi0Shape.

Section Gaussian.
Local Open Scope R_scope.

Lemma cinv_one : cinv [[c1]] = [[(1, 0)]].
Proof.
  unfold cinv, cdet, minor, c1. simpl. unfold cdiv, cmul, cadd. simpl.
  repeat (f_equal; try (field; lra); try lra).
Qed.

Lemma clog_pi : clog (PI, 0) = (ln PI, 0).
Proof.
  pose proof PI_RGT_0 as Hpi.
  unfold clog, cabs, carg. simpl.
  replace (PI * PI + 0 * 0) with (Rsqr PI) by (unfold Rsqr; lra).
  rewrite sqrt_Rsqr by lra.
  destruct (Rlt_dec 0 PI) as [_|Hn]; [|lra].
  replace (0 / PI) with 0 by (field; lra). by rewrite atan_0.
Qed.

Lemma norm_one_dimension :
  cpow (cmul (PI, 0) (1, 0)) (cmul (Q2R (inject_Z (- (1))), 0) (Q2R (1 # 4), 0))
  = (Rpower PI (- / 4), 0).
Proof.
  pose proof PI_RGT_0 as Hpi.
  replace (cmul (PI, 0) (1, 0)) with ((PI, 0) : C)
    by (unfold cmul; simpl; f_equal; lra).
  replace (cmul (Q2R (inject_Z (- (1))), 0) (Q2R (1 # 4), 0)) with ((- / 4, 0) : C)
    by (unfold cmul, Q2R; simpl; cbv [Z.opp]; f_equal; lra).
  unfold cpow. rewrite is_zero_false by (intros [=]; lra).
  rewrite clog_pi. unfold cmul, cexp, Rpower. cbn [fst snd].
  replace (- / 4 * 0 + 0 * ln PI) with 0 by lra.
  replace (- / 4 * ln PI - 0 * 0) with (- / 4 * ln PI) by lra.
  rewrite cos_0, sin_0. f_equal; lra.
Qed.

Lemma gaussian_node (q0 p0 x : R) :
  phi0_spec 1 c1 (Pi_gauss q0 p0) [(x, 0)] false
  = (Rpower PI (- / 4) * (exp (- ((x - q0) * (x - q0)) / 2) * cos (p0 * (x - q0))),
     Rpower PI (- / 4) * (exp (- ((x - q0) * (x - q0)) / 2) * sin (p0 * (x - q0)))).
Proof.
  unfold phi0_spec. cbn [Pi_q Pi_p Pi_Q Pi_P Pi_gauss].
  cbn [la_inv numeric]. rewrite cinv_one. unfold c1, ci, inner, dot. simpl.
  rewrite !cpow_one, norm_one_dimension.
  match goal with |- cmul _ (cexp ?e) = _ =>
    replace e with ((- ((x - q0) * (x - q0)) / 2, p0 * (x - q0)) : C)
      by (unfold cadd, cmul, cdiv, csub, Q2R; simpl; f_equal; field)
  end.
  unfold cmul, cexp. simpl. f_equal; lra.
Qed.

(** X19: In one dimension, for [eps = 1], [Q = 1], [P = i] and real [q0],
    [p0], [_evaluate_phi0] is the Gaussian wave packet
    [pi^(-1/4) exp(-(x-q0)^2/2) exp(i p0 (x-q0))] at every real node [x],
    given here by its real and imaginary part. *)
Theorem ground_state_is_gaussian (q0 p0 : R) (xs : list R) :
  _evaluate_phi0 packet_1d (Pi_gauss q0 p0) [(λ x, (x, 0)) <$> xs] false
  = (λ x, (Rpower PI (- / 4) * (exp (- ((x - q0) * (x - q0)) / 2) * cos (p0 * (x - q0))),
           Rpower PI (- / 4) * (exp (- ((x - q0) * (x - q0)) / 2) * sin (p0 * (x - q0)))))
    <$> xs.
Proof.
  unfold Pi_gauss.
  rewrite (evaluate_phi0_one_dimension packet_1d (q0, 0) (p0, 0) c1 ci c0 (1, 0))
    by exact cinv_one.
  rewrite <- list_fmap_compose. apply list_fmap_ext. intros i x _. simpl.
  apply gaussian_node.
Qed.
End Gaussian.

(** ** The further properties at concrete inputs *)

Lemma store_ok_world1 : store_ok world1.
Proof.
  split.
  - reflexivity.
  - constructor; [apply wf_shape_A|constructor].
  - reflexivity.
  - repeat constructor. eexists. reflexivity.
Qed.

Lemma store_ok_world2 : store_ok world2.
Proof.
  split.
  - reflexivity.
  - constructor; [apply wf_shape_A|]. constructor; [apply wf_shape_B|constructor].
  - reflexivity.
  - repeat constructor; eexists; reflexivity.
Qed.


Lemma set_coefficient_keeps_others_witness :
  ∃ w1 view x,
    set_coefficient 0 [1; 0] ci world1 = (Ok tt, w1) ∧
    get_coefficient 0 [0; 1] world1 = (Ok view, world1) ∧
    get_coefficient 0 [0; 1] w1 = (Ok view, w1) ∧
    read (mem world1) view = Some [x] ∧
    read (mem w1) view = Some [x].
Proof.
  apply (set_coefficient_keeps_others world1 0 shape_A [1; 0] 1 [0; 1] 2 ci).
  - apply store_ok_world1.
  - lia.
  - reflexivity.
  - vm_compute. reflexivity.
  - vm_compute. reflexivity.
  - discriminate.
Defined.

Lemma single_coefficient_refused_witness :
  (set_coefficient 1 [0; 0] ci world1 = (Raise ValueError, world1) ∧
   get_coefficient 1 [0; 0] world1 = (Raise ValueError, world1)) ∧
  (set_coefficient 0 [1; 1] ci world1 = (Raise ValueError, world1) ∧
   get_coefficient 0 [1; 1] world1 = (Raise ValueError, world1)).
Proof.
  split.
  - apply (proj1 (single_coefficient_refused world1 1 [0; 0] ci)). right. simpl. lia.
  - apply (proj2 (single_coefficient_refused world1 0 [1; 1] ci) shape_A).
    + simpl. lia.
    + reflexivity.
    + vm_compute. reflexivity.
Defined.



Lemma set_coefficients_all_copies_witness :
  ∃ w', set_coefficients None [NdArray 1 0 3; NdArray 1 0 3] world2 = (Ok tt, w') ∧
    frame world2 w' ∧ store_ok w' ∧
    ∀ t v d, [NdArray 1 0 3; NdArray 1 0 3] !! t = Some v →
      read (mem world2) v = Some d →
      ∃ c, _coefficients (self w') !! t = Some c ∧
           read (mem w') c = Some d ∧ length (mem world2) ≤ nd_base c.
Proof.
  apply (set_coefficients_all_copies world2 [NdArray 1 0 3; NdArray 1 0 3]).
  - apply store_ok_world2.
  - repeat constructor; eexists; reflexivity.
Defined.

Lemma set_basis_shape_keeps_storage_witness :
  ∃ w', set_basis_shape (Some (Z.of_nat 0)) shape_B world1 = (Ok tt, w') ∧
        store_ok w' ∧
        get_basis_shape (Some (Z.of_nat 0)) w' = (Ok shape_B, w') ∧
        get_basis_shape None w' = (Ok (<[0 := shape_B]> (_basis_shapes (self world1))), w').
Proof.
  apply (set_basis_shape_keeps_storage world1 0 shape_A shape_B).
  - apply store_ok_world1.
  - reflexivity.
  - apply wf_shape_B.
  - apply overlapping_A_B.
Defined.

Lemma set_coefficient_keeps_storage_witness :
  ∃ w', set_coefficient 0 [0; 1] ci world1 = (Ok tt, w') ∧ store_ok w'.
Proof.
  apply (set_coefficient_keeps_storage world1 0 shape_A [0; 1] 2 ci).
  - apply store_ok_world1.
  - lia.
  - reflexivity.
  - vm_compute. reflexivity.
Defined.

Lemma set_coefficient_vector_aliases_witness :
  ∃ w1 w2,
    set_coefficient_vector (NdArray 0 0 6) world2 = (Ok tt, w1) ∧
    store_ok w1 ∧
    set_coefficient (Z.of_nat 1) [1; 1] ci w1 = (Ok tt, w2) ∧
    read (mem w2) (NdArray 0 0 6)
      = Some (<[sum_list (take 1 (_basis_sizes (self world2))) + 2 := ci]>
                [c1; c0; c0; c0; ci; c0]).
Proof.
  apply (set_coefficient_vector_aliases world2 (NdArray 0 0 6) [c1; c0; c0; c0; ci; c0]
           1 shape_B [1; 1] 2 ci).
  - reflexivity.
  - constructor; [apply wf_shape_A|]. constructor; [apply wf_shape_B|constructor].
  - reflexivity.
  - reflexivity.
  - reflexivity.
  - reflexivity.
  - vm_compute. reflexivity.
Defined.

Lemma basis_shape_component_index_witness :
  set_basis_shape (Some (- 1)%Z) shape_A world2 = (Raise ValueError, world2) ∧
  get_basis_shape (Some (- 1)%Z) world2 = (Ok shape_B, world2) ∧
  get_basis_shape (Some 2%Z) world2 = (Raise IndexError, world2).
Proof.
  destruct (basis_shape_component_index world2 (- 1) shape_A) as (Hset & Hneg & _);
    [reflexivity|].
  destruct (basis_shape_component_index world2 2 shape_A) as (_ & _ & Hout);
    [reflexivity|].
  split; [apply Hset; left; lia|].
  split; [apply (Hneg shape_B); [simpl; lia|reflexivity]|].
  apply Hout. right. simpl. lia.
Defined.

Lemma set_same_basis_shape_witness :
  ∃ w' c old cnew,
    _coefficients (self world1) !! 0 = Some c ∧ read (mem world1) c = Some old ∧
    set_basis_shape (Some (Z.of_nat 0)) shape_A world1 = (Ok tt, w') ∧
    _coefficients (self w') !! 0 = Some cnew ∧
    nd_base cnew = length (mem world1) ∧
    read (mem w') cnew = Some old.
Proof.
  apply (set_same_basis_shape world1 0 shape_A).
  - apply store_ok_world1.
  - reflexivity.
  - simpl. lia.
Defined.

Lemma set_basis_shape_all_components_witness :
  ∃ w', set_basis_shape None [shape_B; shape_A] world2 = (Ok tt, w') ∧
    store_ok w' ∧
    _basis_shapes (self w') = [shape_B; shape_A] ∧
    ∀ t A B c old,
      _basis_shapes (self world2) !! t = Some A → [shape_B; shape_A] !! t = Some B →
      _coefficients (self world2) !! t = Some c → read (mem world2) c = Some old →
      ∃ c' new, _coefficients (self w') !! t = Some c' ∧
        length (mem world2) ≤ nd_base c' ∧
        read (mem w') c' = Some new ∧
        length new = bs_basissize B ∧
        (∀ k jA jB, bs_lima A !! k = Some jA → bs_lima B !! k = Some jB →
                    new !! jB = old !! jA) ∧
        (∀ j, j < bs_basissize B →
              (¬ ∃ k, is_Some (bs_lima A !! k) ∧ bs_lima B !! k = Some j) →
              new !! j = Some (lit 0)).
Proof.
  apply (set_basis_shape_all_components world2 [shape_B; shape_A]).
  - apply store_ok_world2.
  - reflexivity.
  - constructor; [apply wf_shape_B|]. constructor; [apply wf_shape_A|constructor].
  - constructor; [apply overlapping_A_B|].
    constructor; [apply overlapping_sym, overlapping_A_B|constructor].
Defined.

Lemma gauss_hermite_rule_witness :
  run table_roots (GaussHermiteQR.__init__ 2 ∅)
  = Ok (GaussHermite 2 ∅ 2 [[(- / sqrt 2, 0)%R; (/ sqrt 2, 0)%R]]
          [gauss_hermite_weight 2 <$> [(- / sqrt 2, 0)%R; (/ sqrt 2, 0)%R]]).
Proof.
  apply (gauss_hermite_rule table_roots 2 ∅ [(- / sqrt 2, 0)%R; (/ sqrt 2, 0)%R]
           [(1, 0)%R; (1, 0)%R]).
  - lia.
  - reflexivity.
Defined.

Lemma gauss_laguerre_rule_witness :
  run table_roots2 (GaussLaguerreQR.__init__ 2 c0 ∅)
  = Ok (GaussLaguerre 2 c0 ∅ 2
          [np_real <$> [(2 - sqrt 2, 0)%R; (2 + sqrt 2, 0)%R]]
          [np_real <$> (laguerre_weight 2 <$> [(2 - sqrt 2, 0)%R; (2 + sqrt 2, 0)%R])]).
Proof.
  apply (gauss_laguerre_rule table_roots2 2 c0 ∅ [(2 - sqrt 2, 0)%R; (2 + sqrt 2, 0)%R]
           [(1, 0)%R; (1, 0)%R]).
  - lia.
  - reflexivity.
Defined.

Lemma gauss_rules_one_dimensional_witness :
  ∃ ns ws, one_dimensional rule_gl1 ns ws.
Proof.
  apply (gauss_rules_one_dimensional table_roots 1 c0 ∅ rule_gl1).
  right. reflexivity.
Defined.

Lemma tensor_product_fails_only_on_empty_witness :
  TensorProductQR.__init__ ([] : list (QuadratureRule C)) ∅ = Raise TypeError ∧
  ∃ nodes weights,
    TensorProductQR.__init__ [rule_gh2; rule_gl1] ∅
    = Ok (TensorProduct (length [rule_gh2; rule_gl1]) [rule_gh2; rule_gl1] ∅
            (product (get_number_nodes <$> [rule_gh2; rule_gl1])) nodes weights) ∧
    length nodes = length [rule_gh2; rule_gl1] ∧
    Forall (λ row, length row = product (get_number_nodes <$> [rule_gh2; rule_gl1]))
           nodes ∧
    length weights = product (get_number_nodes <$> [rule_gh2; rule_gl1]).
Proof.
  split.
  - apply (tensor_product_fails_only_on_empty [] ∅); [constructor|reflexivity].
  - apply (tensor_product_fails_only_on_empty [rule_gh2; rule_gl1] ∅); [|discriminate].
    repeat constructor.
    + eexists _, _. repeat split; reflexivity.
    + eexists _, _. repeat split; reflexivity.
Defined.

Lemma tensor_product_of_one_rule_witness :
  ∃ ns ws,
    one_dimensional rule_gh2 ns ws ∧
    TensorProductQR.__init__ [rule_gh2] ∅
    = Ok (TensorProduct 1 [rule_gh2] ∅ (get_number_nodes rule_gh2) [ns] ws).
Proof.
  eexists _, _. split; [repeat split; reflexivity|].
  apply (tensor_product_of_one_rule rule_gh2 ∅). repeat split; reflexivity.
Defined.

Lemma evaluate_phi0_length_witness :
  length (_evaluate_phi0 packet1 Pi0 nodes0 false) = 1.
Proof.
  apply (evaluate_phi0_length packet1 Pi0 nodes0 false 2 1).
  - lia.
  - split; [reflexivity|repeat constructor].
  - reflexivity.
  - reflexivity.
  - split; [reflexivity|repeat constructor].
  - split; [reflexivity|repeat constructor].
Defined.
